(** * The serial shell of IotWebConf18ShellCommands.ino

    A shallow embedding of [namespace shell] (registry of commands, command
    parser, dispatcher and line assembler) together with the properties of
    the shell that its specification states.

    Conventions.
    - A value of type [string] stands for the characters of a C string that
      precede its terminating NUL.
    - A [char] array that the program fills with [strlcpy] is represented by
      the C string it holds; its capacity is passed to the copy, and a copy
      that would store past the capacity has no defined behaviour: it is
      [None].
    - An object the program reads before writing it (the local [CommandLine]
      of [execute]) is an explicit argument that stands for whatever the
      stack holds at that moment.
    - What the shell does to the outside is a list of [event]s: text sent to
      [Serial], and calls of registered handlers, which are opaque. *)

From Stdlib Require Import ZArith Ascii String Lia.
From stdpp Require Import base list strings sorting pretty.

Local Open Scope Z_scope.

#[local] Arguments String.append !_ _ / : simpl nomatch.

(** ** The C library functions the shell calls *)

Module Libc.

(** [size_t] and [long] are 32 bits wide on the ESP8266 and ESP32. *)
Definition to_size_t (z : Z) : Z := z mod 2 ^ 32.
Definition LONG_MAX : Z := 2 ^ 31 - 1.
Definition LONG_MIN : Z := - 2 ^ 31.

Definition NUL : ascii := Ascii.zero.

Definition code (c : ascii) : Z := Z.of_N (N_of_ascii c).

(** [s + n] for a pointer [s] into a string: the characters from offset [n]. *)
Fixpoint str_drop (n : nat) (s : string) : string :=
  match n, s with
  | O, _ => s
  | S n', String _ s' => str_drop n' s'
  | S _, EmptyString => EmptyString
  end.

(** The first [n] characters of [s]. *)
Fixpoint str_take (n : nat) (s : string) : string :=
  match n, s with
  | O, _ => EmptyString
  | S n', String c s' => String c (str_take n' s')
  | S _, EmptyString => EmptyString
  end.

Definition strlen (s : string) : Z := Z.of_nat (String.length s).

(** [strchr s c - s], or [None] for the null pointer. *)
Fixpoint strchr (s : string) (c : ascii) : option Z :=
  match s with
  | EmptyString => None
  | String a s' =>
      if Ascii.eqb a c then Some 0 else Z.succ <$> strchr s' c
  end.

(** Number of bytes [strlcpy (dst, src, size)] stores into [dst]: at most
    [size - 1] characters of [src] and the terminator, nothing when [size]
    is 0. *)
Definition strlcpy_stored (src : string) (size : Z) : Z :=
  if size =? 0 then 0 else Z.min (strlen src) (size - 1) + 1.

(** [strlcpy] into an array of [capacity] bytes that holds [dst]. *)
Definition strlcpy (capacity : Z) (dst src : string) (size : Z)
  : option string :=
  if size =? 0 then Some dst
  else if strlcpy_stored src size <=? capacity
       then Some (str_take (Z.to_nat (Z.min (strlen src) (size - 1))) src)
       else None.

(** [strcmp]: ISO C fixes the sign of the result only, the sign of the
    difference of the first two bytes that differ, read as [unsigned char]. *)
Fixpoint strcmp (s1 s2 : string) : Z :=
  match s1, s2 with
  | EmptyString, EmptyString => 0
  | EmptyString, String _ _ => -1
  | String _ _, EmptyString => 1
  | String c1 r1, String c2 r2 =>
      if code c1 <? code c2 then -1
      else if code c2 <? code c1 then 1
      else strcmp r1 r2
  end.

(** *** [strtol (nptr, &end, 0)] *)

Definition isspace (c : ascii) : bool :=
  (code c =? 32) || ((9 <=? code c) && (code c <=? 13)).

(** Value of a character as a digit, if it is one in some base up to 36. *)
Definition digit_value (c : ascii) : option Z :=
  let n := code c in
  if (48 <=? n) && (n <=? 57) then Some (n - 48)
  else if (97 <=? n) && (n <=? 122) then Some (n - 97 + 10)
  else if (65 <=? n) && (n <=? 90) then Some (n - 65 + 10)
  else None.

Definition is_digit_in (base : Z) (c : ascii) : bool :=
  match digit_value c with
  | Some d => d <? base
  | None => false
  end.

Fixpoint skip_spaces (s : string) : string :=
  match s with
  | String c s' => if isspace c then skip_spaces s' else s
  | EmptyString => s
  end.

(** The longest run of digits of [base] at the head of [s]: the number read
    so far, whether a digit was seen, and what follows the run. *)
Fixpoint digits (base : Z) (s : string) (acc : Z) (any : bool)
  : Z * bool * string :=
  match s with
  | String c s' =>
      match digit_value c with
      | Some d =>
          if d <? base then digits base s' (acc * base + d) true
          else (acc, any, s)
      | None => (acc, any, s)
      end
  | EmptyString => (acc, any, s)
  end.

Definition clamp_long (z : Z) : Z := Z.max LONG_MIN (Z.min LONG_MAX z).

(** With base 0 the base is taken from the prefix: [0x] or [0X] before a
    hexadecimal digit gives 16, another leading [0] gives 8, else 10. *)
Definition detect_base (s : string) : Z * string :=
  match s with
  | String z (String x (String h r)) =>
      if (code z =? 48) && ((code x =? 120) || (code x =? 88))
         && is_digit_in 16 h
      then (16, String h r)
      else if code z =? 48 then (8, s) else (10, s)
  | String z _ => if code z =? 48 then (8, s) else (10, s)
  | EmptyString => (10, s)
  end.

(** Returns the converted value and the string at [end].  White space is
    skipped, then a sign, then the digits; a value out of the range of
    [long] is replaced by [LONG_MAX] or [LONG_MIN]; when there is no digit
    the value is 0 and [end] is [nptr]. *)
Definition strtol (nptr : string) : Z * string :=
  let s1 := skip_spaces nptr in
  let '(neg, s2) :=
    match s1 with
    | String c r =>
        if code c =? 45 then (true, r)
        else if code c =? 43 then (false, r)
        else (false, s1)
    | EmptyString => (false, s1)
    end in
  let '(base, s3) := detect_base s2 in
  let '(acc, any, rest) := digits base s3 0 false in
  if any then (clamp_long (if neg then - acc else acc), rest)
  else (0, nptr).

End Libc.

Import Libc.

(** ** Data of the shell *)

Definition MAX_COMMANDS : Z := 10.
Definition MAX_COMMAND_SIZE : Z := 40.

Inductive input_type := NONE | INT32 | STRING.

#[global] Instance input_type_eq_dec : EqDecision input_type.
Proof. solve_decision. Defined.

(** A function pointer is an opaque address; the three members of the
    anonymous union of [Command] share one storage, [function]. *)
Definition fnptr := Z.

Record Command := mkCommand {
  name : string;
  function : fnptr;
  doc : string;
  parameter_type : input_type
}.

Record CommandLine := mkCommandLine {
  function_name : string;
  argument_type : input_type;
  int_argument : Z;
  str_argument : string
}.

Inductive event :=
| Print (s : string)
| CallVoid (f : fnptr)
| CallInt (f : fnptr) (n : Z)
| CallStr (f : fnptr) (s : string).

Definition CRLF : string := String "013" (String "010" EmptyString).

(** [Serial.println (s)] *)
Definition println (s : string) : event := Print (s +:+ CRLF).

(** ** The parser *)

(** [parseCommand (command, command_line)]: the record after the call and
    what was printed; [None] when a copy stores past the end of its array. *)
Definition parseCommand (command : string) (command_line : CommandLine)
  : option (CommandLine * list event) :=
  if strlen command =? 0 then
    Some (mkCommandLine (function_name command_line) NONE
            (int_argument command_line) (str_argument command_line),
          [println "Received empty command"])
  else
    match strchr command " " with
    | None =>
        fn ← strlcpy MAX_COMMAND_SIZE (function_name command_line) command
               (to_size_t MAX_COMMAND_SIZE);
        Some (mkCommandLine fn NONE
                (int_argument command_line) (str_argument command_line), [])
    | Some first_space =>
        fn ← strlcpy MAX_COMMAND_SIZE (function_name command_line) command
               (to_size_t (first_space + 1));
        arg ← strlcpy MAX_COMMAND_SIZE (str_argument command_line)
                (str_drop (Z.to_nat (first_space + 1)) command)
                (to_size_t (MAX_COMMAND_SIZE - first_space - 1));
        let '(n, end_) := strtol arg in
        Some (mkCommandLine fn
                (if bool_decide (end_ = EmptyString) then INT32 else STRING)
                n arg, [])
    end.

(** ** The registry *)

(** The globals of [namespace shell] and the static locals of
    [processSerialInput]. *)
Record Shell := mkShell {
  commands : list Command;       (* Command commands[MAX_COMMANDS] *)
  commands_count : Z;            (* uint8_t *)
  input_line : list ascii;       (* char input_line[MAX_COMMAND_SIZE] *)
  input_pos : Z                  (* unsigned int *)
}.

Definition set_commands (cs : list Command) (sh : Shell) : Shell :=
  mkShell cs (commands_count sh) (input_line sh) (input_pos sh).

Definition set_commands_count (n : Z) (sh : Shell) : Shell :=
  mkShell (commands sh) n (input_line sh) (input_pos sh).

Definition set_input_line (l : list ascii) (sh : Shell) : Shell :=
  mkShell (commands sh) (commands_count sh) l (input_pos sh).

Definition set_input_pos (n : Z) (sh : Shell) : Shell :=
  mkShell (commands sh) (commands_count sh) (input_line sh) n.

(** [a[i] = f (a[i])]; a store outside the array has no defined behaviour. *)
Definition array_set {A} (a : list A) (i : Z) (f : A → A) : option (list A) :=
  if (0 <=? i) && (i <? Z.of_nat (length a))
  then Some (alter f (Z.to_nat i) a)
  else None.

(** The registered commands: [commands[0 .. commands_count - 1]]. *)
Definition entries (sh : Shell) : list Command :=
  take (Z.to_nat (commands_count sh)) (commands sh).

(** A slot of the zero-initialised global array. *)
Definition blank : Command := mkCommand EmptyString 0 EmptyString NONE.

(** The state when the sketch starts. *)
Definition initial : Shell :=
  mkShell (replicate (Z.to_nat MAX_COMMANDS) blank) 0
          (replicate (Z.to_nat MAX_COMMAND_SIZE) NUL) 0.

Definition addCommand (name' doc_fstring : string) (sh : Shell)
  : option (bool * Shell * list event) :=
  if commands_count sh <? MAX_COMMANDS then
    cs1 ← array_set (commands sh) (commands_count sh)
            (λ c, mkCommand name' (function c) (doc c) (parameter_type c));
    cs2 ← array_set cs1 (commands_count sh)
            (λ c, mkCommand (name c) (function c) doc_fstring
                    (parameter_type c));
    Some (true, set_commands cs2 sh, [])
  else
    Some (false, sh, [println "Too many commands have been defined."]).

(** The common shape of the three registration functions: after a
    successful [addCommand], store the handler in the union, then the tag,
    with [commands_count++] in the second store. *)
Definition define (tag : input_type) (name' : string) (function' : fnptr)
    (doc_fstring : string) (sh : Shell) : option (Shell * list event) :=
  '(ok, sh1, out) ← addCommand name' doc_fstring sh;
  if ok : bool then
    cs1 ← array_set (commands sh1) (commands_count sh1)
            (λ c, mkCommand (name c) function' (doc c) (parameter_type c));
    cs2 ← array_set cs1 (commands_count sh1)
            (λ c, mkCommand (name c) (function c) (doc c) tag);
    Some (set_commands_count ((commands_count sh1 + 1) mod 256)
            (set_commands cs2 sh1), out)
  else Some (sh1, out).

(** [defineCommand] stores through [voidFunction] and tags with [NONE],
    [defineIntCommand] through [intFunction] with [INT32],
    [defineStringCommand] through [strFunction] with [STRING]. *)
Definition defineCommand := define NONE.
Definition defineIntCommand := define INT32.
Definition defineStringCommand := define STRING.

(** ** Help listing and dispatch *)

Definition compareCommandNames (c1 c2 : Command) : Z :=
  strcmp (name c1) (name c2).

(** The order a comparison function gives to [qsort]: [a] may stand before
    [b] when [compar (a, b)] is not positive. *)
Definition compar_le (compar : Command → Command → Z) (a b : Command) : Prop :=
  compar a b <= 0.

#[global] Instance compar_le_dec compar a b : Decision (compar_le compar a b).
Proof. unfold compar_le. apply _. Defined.

Definition name_le : relation Command := compar_le compareCommandNames.

(** One line of the listing. *)
Definition print_command (c : Command) : list event :=
  [Print "  "; Print (name c); Print " "; Print (doc c); println "."].

(** The body of the loop of [execute] at one entry that matches. *)
Definition call (input : CommandLine) (c : Command) : list event :=
  [Print "Calling : "; Print (function_name input)] ++
  match argument_type input with
  | NONE => [println "()"; CallVoid (function c)]
  | INT32 =>
      [Print "("; Print (pretty (int_argument input)); println ")";
       CallInt (function c) (int_argument input)]
  | STRING =>
      [Print "('"; Print (str_argument input); println "')";
       CallStr (function c) (str_argument input)]
  end.

Definition matches (input : CommandLine) (c : Command) : bool :=
  bool_decide (strcmp (function_name input) (name c) = 0)
  && bool_decide (argument_type input = parameter_type c).

(** The loop of [execute] over the registered commands: what the first
    entry that matches does, or [None] when the loop runs to its end. *)
Fixpoint execute_loop (input : CommandLine) (cs : list Command)
  : option (list event) :=
  match cs with
  | [] => None
  | c :: cs' =>
      if matches input c then Some (call input c) else execute_loop input cs'
  end.

Section Dispatch.

(** [qsort (base, nmemb, size, compar)] on an array of [Command]s. *)
Variable qsort : (Command → Command → Z) → list Command → list Command.

Definition listAvailableCommands (sh : Shell) : Shell * list event :=
  let n := Z.to_nat (commands_count sh) in
  let sorted := qsort compareCommandNames (take n (commands sh)) in
  let sh' := set_commands (sorted ++ drop n (commands sh)) sh in
  (sh', entries sh' ≫= print_command).

(** [stack] is what the local [input] holds when [execute] is entered. *)
Definition execute (stack : CommandLine) (command_str : string) (sh : Shell)
  : option (Shell * list event) :=
  '(input, out) ← parseCommand command_str stack;
  match execute_loop input (entries sh) with
  | Some evs => Some (sh, out ++ evs)
  | None =>
      let '(sh', listing) := listAvailableCommands sh in
      Some (sh', out ++
                 [Print "'"; Print command_str;
                  println "' not supported. Available commands :"] ++
                 listing)
  end.

(** ** The line assembler *)

(** The C string in [a]: the characters before the first NUL; reading past
    the array has no defined behaviour. *)
Fixpoint c_str (a : list ascii) : option string :=
  match a with
  | [] => None
  | c :: a' =>
      if Ascii.eqb c NUL then Some EmptyString else String c <$> c_str a'
  end.

Definition processSerialInput (stack : CommandLine) (input_byte : ascii)
    (sh : Shell) : option (Shell * list event) :=
  if code input_byte =? 10 then
    a ← array_set (input_line sh) (input_pos sh) (λ _, NUL);
    line ← c_str a;
    '(sh', evs) ← execute stack line (set_input_line a sh);
    Some (set_input_pos 0 sh', println "" :: evs)
  else if code input_byte =? 13 then Some (sh, [])
  else if code input_byte =? 8 then
    if 0 <? input_pos sh
    then Some (set_input_pos (input_pos sh - 1) sh,
               [Print (String "008" (String " " (String "008" "")))])
    else Some (sh, [])
  else
    let prompt := if input_pos sh =? 0 then [Print "> "] else [] in
    if input_pos sh <? MAX_COMMAND_SIZE - 1 then
      a ← array_set (input_line sh) (input_pos sh) (λ _, input_byte);
      Some (set_input_pos (input_pos sh + 1) (set_input_line a sh),
            prompt ++ [Print (String input_byte "")])
    else Some (sh, prompt).

(** [checkSerialInput] when [Serial] holds [bytes]; [stacks k] is what the
    stack holds at the call of [execute] for the [k]-th byte. *)
Fixpoint checkSerialInput (stacks : nat → CommandLine) (bytes : list ascii)
    (sh : Shell) : option (Shell * list event) :=
  match bytes with
  | [] => Some (sh, [])
  | b :: bs =>
      '(sh1, evs1) ← processSerialInput (stacks O) b sh;
      '(sh2, evs2) ← checkSerialInput (λ k, stacks (S k)) bs sh1;
      Some (sh2, evs1 ++ evs2)
  end.

End Dispatch.

(** ** What is observed *)

(** The text sent to [Serial]. *)
Fixpoint output (evs : list event) : string :=
  match evs with
  | [] => EmptyString
  | Print s :: evs' => s +:+ output evs'
  | _ :: evs' => output evs'
  end.

(** The handler calls. *)
Definition is_call (e : event) : bool :=
  match e with Print _ => false | _ => true end.

Definition calls (evs : list event) : list event := filter is_call evs.

(** ** The sketch's commands *)

(** [defineShellCommands]; the handlers are the addresses 1 to 9. *)
Definition defineShellCommands (sh : Shell) : option (Shell * list event) :=
  '(sh, o1) ← defineCommand "reset" 1 "(Restarts the ESP)" sh;
  '(sh, o2) ← defineCommand "save_config" 2 "(Saves the config to EEPROM)" sh;
  '(sh, o3) ← defineCommand "reset_config" 3
                "(Resets the complete IotWeb config)" sh;
  '(sh, o4) ← defineStringCommand "ssid" 4 "name (Sets SSID to name)" sh;
  '(sh, o5) ← defineStringCommand "wifi_pwd" 5
                "abc (Sets WiFi password to abc)" sh;
  '(sh, o6) ← defineStringCommand "ap_pwd" 6
                "abc (Sets AP password to abc)" sh;
  '(sh, o7) ← defineStringCommand "name" 7 "abc (Sets ThingName to abc)" sh;
  '(sh, o8) ← defineIntCommand "ap" 8
                "0/1 (Enables/disables access point)" sh;
  '(sh, o9) ← defineIntCommand "wifi" 9 "0/1 (Enables/disables WiFi)" sh;
  Some (sh, o1 ++ o2 ++ o3 ++ o4 ++ o5 ++ o6 ++ o7 ++ o8 ++ o9).

(** A [qsort]: ISO C asks for the array sorted by the comparison function
    and leaves the order of elements that compare equal open; this one is
    a merge sort. *)
Definition merge_qsort (compar : Command → Command → Z) (l : list Command)
  : list Command :=
  merge_sort (compar_le compar) l.

(** The registry of the sketch after [setup]. *)
Definition sketch : Shell :=
  match defineShellCommands initial with
  | Some (sh, _) => sh
  | None => initial
  end.

(** ** Notions used in the statements *)

(** The classification [parseCommand] makes of the copied argument, from
    what [strtol] leaves at [end]. *)
Definition classify (arg : string) : input_type :=
  if bool_decide ((strtol arg).2 = EmptyString) then INT32 else STRING.

(** The handler call [execute] makes for [input] at the entry [c]. *)
Definition invocation (input : CommandLine) (c : Command) : event :=
  match argument_type input with
  | NONE => CallVoid (function c)
  | INT32 => CallInt (function c) (int_argument input)
  | STRING => CallStr (function c) (str_argument input)
  end.

(** [input] and [c] agree on name and kind. *)
Definition agree (input : CommandLine) (c : Command) : Prop :=
  function_name input = name c ∧ argument_type input = parameter_type c.

(** The array [commands] has [MAX_COMMANDS] slots, of which
    [commands_count] are in use. *)
Definition registry_ok (sh : Shell) : Prop :=
  length (commands sh) = Z.to_nat MAX_COMMANDS ∧
  0 <= commands_count sh <= MAX_COMMANDS.

(** The array [input_line] has [MAX_COMMAND_SIZE] slots and the cursor
    leaves room for the terminator. *)
Definition line_ok (sh : Shell) : Prop :=
  length (input_line sh) = Z.to_nat MAX_COMMAND_SIZE ∧
  0 <= input_pos sh <= MAX_COMMAND_SIZE - 1.

(** A byte that [processSerialInput] handles in its [default] case. *)
Definition ordinary (b : ascii) : bool :=
  negb ((code b =? 10) || (code b =? 13) || (code b =? 8)).

(** The characters of [a] before its first NUL, all of [a] when it has
    none. *)
Fixpoint until_nul (a : list ascii) : string :=
  match a with
  | [] => EmptyString
  | c :: a' => if Ascii.eqb c NUL then EmptyString else String c (until_nul a')
  end.

(** The text printed before the listing when no entry agrees. *)
Definition not_supported (command_str : string) : list event :=
  [Print "'"; Print command_str;
   println "' not supported. Available commands :"].

(** One line of the help listing, as text. *)
Definition help_line (c : Command) : string :=
  "  " +:+ name c +:+ " " +:+ doc c +:+ "." +:+ CRLF.

Fixpoint help_text (cs : list Command) : string :=
  match cs with
  | [] => EmptyString
  | c :: cs' => help_line c +:+ help_text cs'
  end.

(** The lexicographic order of strings by the codes of their bytes. *)
Inductive lex_lt : string → string → Prop :=
| lex_lt_nil c t : lex_lt EmptyString (String c t)
| lex_lt_head c d s t : code c < code d → lex_lt (String c s) (String d t)
| lex_lt_tail c s t : lex_lt s t → lex_lt (String c s) (String c t).

(** *** Integer texts *)

Fixpoint all_digits (base : Z) (s : string) : bool :=
  match s with
  | EmptyString => true
  | String c s' => is_digit_in base c && all_digits base s'
  end.

(** One digit of [base] or more, and nothing else. *)
Definition digit_string (base : Z) (s : string) : bool :=
  negb (bool_decide (s = EmptyString)) && all_digits base s.

(** The number that the digits of [s] write in [base], after [acc]. *)
Fixpoint number (base : Z) (s : string) (acc : Z) : Z :=
  match s with
  | EmptyString => acc
  | String c s' => number base s' (acc * base + default 0 (digit_value c))
  end.

(** What follows a prefix [0x] or [0X]. *)
Definition hex_prefixed (s : string) : option string :=
  match s with
  | String z (String x r) =>
      if (code z =? 48) && ((code x =? 120) || (code x =? 88))
      then Some r else None
  | _ => None
  end.

Definition leading_zero (s : string) : bool :=
  match s with
  | String z _ => code z =? 48
  | EmptyString => false
  end.

(** An integer literal of C without sign: [0x] or [0X] and hexadecimal
    digits, or a leading [0] and octal digits, or decimal digits. *)
Definition unsigned_literal (s : string) : bool :=
  match hex_prefixed s with
  | Some r => digit_string 16 r
  | None => if leading_zero s then all_digits 8 s else digit_string 10 s
  end.

Definition unsigned_value (s : string) : Z :=
  match hex_prefixed s with
  | Some r => number 16 r 0
  | None => if leading_zero s then number 8 s 0 else number 10 s 0
  end.

Definition strip_sign (s : string) : bool * string :=
  match s with
  | String c r =>
      if code c =? 45 then (true, r)
      else if code c =? 43 then (false, r)
      else (false, s)
  | EmptyString => (false, s)
  end.

(** A signed integer literal: an optional sign, then an optional prefix
    [0x] or [0], then the digits. *)
Definition integer_literal (s : string) : bool :=
  unsigned_literal (strip_sign s).2.

Definition integer_value (s : string) : Z :=
  if (strip_sign s).1 then - unsigned_value (strip_sign s).2
  else unsigned_value (strip_sign s).2.

(** The texts [strtol] converts whole: white space, then a signed integer
    literal. *)
Definition integer_text (s : string) : bool :=
  integer_literal (skip_spaces s).

Definition integer_text_value (s : string) : Z :=
  integer_value (skip_spaces s).

(** A sequence of registration calls, each given by its kind, name,
    handler and documentation. *)
Fixpoint define_all (regs : list (input_type * string * fnptr * string))
    (sh : Shell) : option (Shell * list event) :=
  match regs with
  | [] => Some (sh, [])
  | (tag, name', function', doc_fstring) :: regs' =>
      '(sh1, out1) ← define tag name' function' doc_fstring sh;
      '(sh2, out2) ← define_all regs' sh1;
      Some (sh2, out1 ++ out2)
  end.

(** The command that a registration call stores. *)
Definition registered (r : input_type * string * fnptr * string) : Command :=
  mkCommand r.1.1.2 r.1.2 r.2 r.1.1.1.

(** The calls of [defineShellCommands], in their order. *)
Definition shell_commands : list (input_type * string * fnptr * string) :=
  [(NONE, "reset", 1, "(Restarts the ESP)");
   (NONE, "save_config", 2, "(Saves the config to EEPROM)");
   (NONE, "reset_config", 3, "(Resets the complete IotWeb config)");
   (STRING, "ssid", 4, "name (Sets SSID to name)");
   (STRING, "wifi_pwd", 5, "abc (Sets WiFi password to abc)");
   (STRING, "ap_pwd", 6, "abc (Sets AP password to abc)");
   (STRING, "name", 7, "abc (Sets ThingName to abc)");
   (INT32, "ap", 8, "0/1 (Enables/disables access point)");
   (INT32, "wifi", 9, "0/1 (Enables/disables WiFi)")].

(** What [addCommand] prints when the registry is full. *)
Definition too_many : event :=
  println "Too many commands have been defined.".

(** The stack of [execute] with nothing in it. *)
Definition zeroed : CommandLine := mkCommandLine EmptyString NONE 0 EmptyString.

(** ** Strings and the C library *)

Section strings.

Implicit Types (s t : string) (c : ascii) (n : nat).

Lemma strlen_nonneg s : 0 <= strlen s.
Proof. unfold strlen. lia. Qed.

Lemma strlen_cons c s : strlen (String c s) = strlen s + 1.
Proof. unfold strlen. simpl. lia. Qed.

Lemma strlen_app s t : strlen (s +:+ t) = strlen s + strlen t.
Proof.
  induction s as [|c s IH]; simpl.
  - unfold strlen. simpl. lia.
  - rewrite !strlen_cons, IH. lia.
Qed.

Lemma strlen_zero s : strlen s = 0 → s = EmptyString.
Proof.
  destruct s; [done|]. rewrite strlen_cons. intros. pose proof (strlen_nonneg s). lia.
Qed.

Lemma str_take_all n s : (String.length s ≤ n)%nat → str_take n s = s.
Proof.
  revert n. induction s as [|c s IH]; intros [|n] Hn; simpl in *; try done; try lia.
  f_equal. apply IH. lia.
Qed.

Lemma str_take_app s t : str_take (String.length s) (s +:+ t) = s.
Proof. induction s as [|c s IH]; simpl; [by destruct t|by f_equal]. Qed.

Lemma str_drop_app s t : str_drop (String.length s) (s +:+ t) = t.
Proof. induction s as [|c s IH]; simpl; done. Qed.

Lemma str_take_length n s : strlen (str_take n s) = Z.min (Z.of_nat n) (strlen s).
Proof.
  revert s. induction n as [|n IH]; intros [|c s]; simpl str_take;
    rewrite ?strlen_cons, ?IH; unfold strlen; simpl String.length; lia.
Qed.

Lemma strchr_bounds s c i : strchr s c = Some i → 0 <= i < strlen s.
Proof.
  revert i. induction s as [|a s IH]; intros i; simpl; [done|].
  rewrite strlen_cons. destruct (Ascii.eqb a c).
  - intros [= <-]. pose proof (strlen_nonneg s). lia.
  - destruct (strchr s c) as [j|]; simpl; [|done].
    intros [= <-]. specialize (IH j eq_refl). lia.
Qed.

(** The first occurrence of [c] in [s +:+ String c t] when [s] has none. *)
Lemma strchr_app s c t :
  strchr s c = None → strchr (s +:+ String c t) c = Some (strlen s).
Proof.
  induction s as [|a s IH]; simpl.
  - by rewrite Ascii.eqb_refl.
  - destruct (Ascii.eqb a c); [done|].
    destruct (strchr s c); simpl; [done|]. intros _.
    rewrite IH by done. simpl. f_equal. rewrite strlen_cons. lia.
Qed.

(** A line is split by its first occurrence of [c]. *)
Lemma strchr_split s c i :
  strchr s c = Some i →
  ∃ s1 s2, s = s1 +:+ String c s2 ∧ strchr s1 c = None ∧ strlen s1 = i.
Proof.
  revert i. induction s as [|a s IH]; intros i; simpl; [done|].
  destruct (Ascii.eqb_spec a c) as [->|Hne].
  - intros [= <-]. by exists EmptyString, s.
  - destruct (strchr s c) as [j|]; simpl; [|done]. intros [= <-].
    destruct (IH j eq_refl) as (s1 & s2 & -> & Hs1 & Hj).
    exists (String a s1), s2. simpl. split_and!; [done| |].
    + destruct (Ascii.eqb_spec a c); [done|]. by rewrite Hs1.
    + rewrite strlen_cons. lia.
Qed.

Lemma to_size_t_small z : 0 <= z < 2 ^ 32 → to_size_t z = z.
Proof. intros. unfold to_size_t. by apply Z.mod_small. Qed.

Lemma code_inj c1 c2 : code c1 = code c2 → c1 = c2.
Proof.
  unfold code. intros H%(inj Z.of_N).
  by rewrite <- (ascii_N_embedding c1), <- (ascii_N_embedding c2), H.
Qed.

(** [strcmp] is 0 on equal strings only. *)
Lemma strcmp_eq s t : strcmp s t = 0 ↔ s = t.
Proof.
  revert t. induction s as [|c s IH]; intros [|d t]; simpl; try done.
  destruct (Z.ltb_spec (code c) (code d)); [split; [lia|]|].
  { intros [= -> _]. lia. }
  destruct (Z.ltb_spec (code d) (code c)); [split; [lia|]|].
  { intros [= -> _]. lia. }
  rewrite IH. assert (c = d) as -> by (apply code_inj; lia).
  split; [by intros ->|by intros [= ->]].
Qed.

Lemma strcmp_range s t : strcmp s t = -1 ∨ strcmp s t = 0 ∨ strcmp s t = 1.
Proof.
  revert t. induction s as [|c s IH]; intros [|d t]; simpl; auto.
  repeat case_match; auto.
Qed.

(** Swapping the arguments changes the sign. *)
Lemma strcmp_flip s t : strcmp t s = - strcmp s t.
Proof.
  revert t. induction s as [|c s IH]; intros [|d t]; simpl; try done.
  destruct (Z.ltb_spec (code c) (code d)), (Z.ltb_spec (code d) (code c));
    try done; try lia.
Qed.

Lemma strcmp_trans s t u : strcmp s t <= 0 → strcmp t u <= 0 → strcmp s u <= 0.
Proof.
  revert t u. induction s as [|c s IH]; intros [|d t] [|e u]; simpl; try done.
  destruct (Z.ltb_spec (code c) (code d)), (Z.ltb_spec (code d) (code c)),
    (Z.ltb_spec (code d) (code e)), (Z.ltb_spec (code e) (code d)),
    (Z.ltb_spec (code c) (code e)), (Z.ltb_spec (code e) (code c));
    try done; try lia; apply IH.
Qed.

(** [strcmp] is negative on the pairs in lexicographic order. *)
Lemma strcmp_lex s t : strcmp s t < 0 ↔ lex_lt s t.
Proof.
  revert t. induction s as [|c s IH]; intros [|d t]; simpl.
  - split; [lia|inversion 1].
  - split; [constructor|lia].
  - split; [lia|inversion 1].
  - destruct (Z.ltb_spec (code c) (code d)).
    { split; [by constructor|lia]. }
    destruct (Z.ltb_spec (code d) (code c)).
    { split; [lia|]. inversion 1; simplify_eq; lia. }
    assert (c = d) as -> by (apply code_inj; lia).
    rewrite IH. split; [by constructor|]. inversion 1; simplify_eq; [lia|done].
Qed.

Lemma str_app_assoc s t u : (s +:+ t) +:+ u = s +:+ t +:+ u.
Proof. induction s as [|c s IH]; simpl; [done|by f_equal]. Qed.

Lemma output_app evs1 evs2 : output (evs1 ++ evs2) = output evs1 +:+ output evs2.
Proof.
  induction evs1 as [|[] evs1 IH]; simpl; [done| |done..].
  by rewrite IH, str_app_assoc.
Qed.

Lemma output_print_command cs : output (cs ≫= print_command) = help_text cs.
Proof.
  induction cs as [|c cs IH]; [done|].
  change ((c :: cs) ≫= print_command)
    with (print_command c ++ (cs ≫= print_command)).
  rewrite output_app, IH. simpl. unfold help_line.
  by rewrite !str_app_assoc.
Qed.

End strings.

(** The order of [compareCommandNames] is a total preorder on commands. *)
#[global] Instance name_le_trans : Transitive name_le.
Proof. intros a b c. apply strcmp_trans. Qed.

#[global] Instance name_le_total : Total name_le.
Proof.
  intros a b. unfold name_le, compar_le, compareCommandNames.
  rewrite (strcmp_flip (name a) (name b)). lia.
Qed.

(** [merge_qsort] does what ISO C asks of [qsort]. *)
Lemma merge_qsort_Permutation compar l : merge_qsort compar l ≡ₚ l.
Proof. apply merge_sort_Permutation. Qed.

Lemma merge_qsort_sorted l :
  StronglySorted name_le (merge_qsort compareCommandNames l).
Proof. apply (StronglySorted_merge_sort name_le). Qed.

(** ** The parser *)

Section parser.

Implicit Types (s t arg : string) (stack : CommandLine).

Lemma str_drop_app_cons s c t :
  str_drop (S (String.length s)) (s +:+ String c t) = t.
Proof. induction s as [|a s IH]; simpl; done. Qed.

Lemma str_take_min s k :
  0 <= k →
  str_take (Z.to_nat (Z.min (strlen s) k)) s = str_take (Z.to_nat k) s.
Proof.
  intros Hk. destruct (Z.le_gt_cases (strlen s) k) as [Hle|Hgt].
  - rewrite Z.min_l by done. unfold strlen in *.
    rewrite !str_take_all; [done|lia..].
  - rewrite Z.min_r by lia. done.
Qed.

(** [strlcpy] with a size that leaves room in the array: the copy is the
    source cut to [size - 1] characters. *)
Lemma strlcpy_fits capacity dst src size :
  0 < size <= capacity →
  strlcpy capacity dst src size = Some (str_take (Z.to_nat (size - 1)) src).
Proof.
  intros Hsize. unfold strlcpy, strlcpy_stored.
  destruct (Z.eqb_spec size 0); [lia|].
  destruct (Z.leb_spec (Z.min (strlen src) (size - 1) + 1) capacity); [|lia].
  by rewrite str_take_min by lia.
Qed.

(** [strlcpy] that stores more bytes than the array has. *)
Lemma strlcpy_outside capacity dst src size :
  0 <= capacity < strlcpy_stored src size →
  strlcpy capacity dst src size = None.
Proof.
  unfold strlcpy, strlcpy_stored. intros Hcap.
  destruct (Z.eqb_spec size 0); [lia|].
  by destruct (Z.leb_spec (Z.min (strlen src) (size - 1) + 1) capacity); [lia|].
Qed.

(** A line with a space after a name of at most 38 characters: the name is
    copied whole, the argument is cut to what is left of 38 characters. *)
Lemma parseCommand_space s arg stack :
  strchr s " " = None → strlen s <= 38 →
  parseCommand (s +:+ String " " arg) stack =
    let arg' := str_take (Z.to_nat (38 - strlen s)) arg in
    Some (mkCommandLine s (classify arg') (strtol arg').1 arg', []).
Proof.
  intros Hs Hlen. unfold parseCommand.
  pose proof (strlen_nonneg s). pose proof (strlen_nonneg arg).
  rewrite strlen_app, strlen_cons.
  destruct (Z.eqb_spec (strlen s + (strlen arg + 1)) 0); [lia|].
  rewrite strchr_app by done.
  rewrite !to_size_t_small by (unfold MAX_COMMAND_SIZE; lia).
  rewrite !strlcpy_fits by (unfold MAX_COMMAND_SIZE; lia). simpl.
  replace (strlen s + 1 - 1) with (strlen s) by lia.
  replace (Z.to_nat (strlen s)) with (String.length s) by (unfold strlen; lia).
  rewrite str_take_app.
  replace (Z.to_nat (strlen s + 1)) with (S (String.length s))
    by (unfold strlen; lia).
  rewrite str_drop_app_cons.
  replace (MAX_COMMAND_SIZE - strlen s - 1 - 1) with (38 - strlen s)
    by (unfold MAX_COMMAND_SIZE; lia).
  unfold classify.
  by destruct (strtol (str_take (Z.to_nat (38 - strlen s)) arg)) as [v e].
Qed.

(** The same for a line that fits the buffer of the line assembler: nothing
    is cut. *)
Lemma parseCommand_space_short s arg stack :
  strchr s " " = None → strlen s + 1 + strlen arg <= 39 →
  parseCommand (s +:+ String " " arg) stack =
    Some (mkCommandLine s (classify arg) (strtol arg).1 arg, []).
Proof.
  intros Hs Hlen. pose proof (strlen_nonneg s). pose proof (strlen_nonneg arg).
  rewrite parseCommand_space by (done || lia). simpl.
  rewrite str_take_all; [done|]. unfold strlen in *. lia.
Qed.

(** A line without a space is the name, cut to 39 characters. *)
Lemma parseCommand_no_space s stack :
  s ≠ EmptyString → strchr s " " = None →
  parseCommand s stack =
    Some (mkCommandLine (str_take 39 s) NONE (int_argument stack)
            (str_argument stack), []).
Proof.
  intros Hne Hs. unfold parseCommand.
  destruct (Z.eqb_spec (strlen s) 0) as [H0|_].
  { by apply strlen_zero in H0. }
  rewrite Hs, to_size_t_small by done.
  by rewrite strlcpy_fits by done.
Qed.

(** No line of at most 39 characters makes [parseCommand] store outside an
    array. *)
Lemma parseCommand_defined s stack :
  strlen s <= 39 → is_Some (parseCommand s stack).
Proof.
  intros Hlen. destruct (decide (s = EmptyString)) as [->|Hne]; [done|].
  destruct (strchr s " ") as [i|] eqn:Hi.
  - apply strchr_split in Hi as (s1 & s2 & -> & Hs1 & _).
    rewrite strlen_app, strlen_cons in Hlen.
    pose proof (strlen_nonneg s1). pose proof (strlen_nonneg s2).
    rewrite parseCommand_space_short by (done || lia). done.
  - by rewrite parseCommand_no_space.
Qed.

(** [parseCommand] prints but calls no handler. *)
Lemma parseCommand_calls s stack input out :
  parseCommand s stack = Some (input, out) → calls out = [].
Proof.
  unfold parseCommand. intros H.
  repeat (case_match; simplify_option_eq); done.
Qed.

(** *** [strtol] and the integer texts *)

Lemma digits_all base s acc any :
  all_digits base s = true →
  digits base s acc any =
    (number base s acc, any || negb (bool_decide (s = EmptyString)),
     EmptyString).
Proof.
  revert acc any. induction s as [|c s IH]; intros acc any; simpl.
  - intros _. by rewrite orb_false_r.
  - unfold is_digit_in. destruct (digit_value c) as [d|]; [|done].
    destruct (d <? base); [|done]. simpl. intros Hs.
    rewrite IH by done. by rewrite orb_true_r.
Qed.

Lemma digits_rest base s acc any :
  all_digits base s = false → (digits base s acc any).2 ≠ EmptyString.
Proof.
  revert acc any. induction s as [|c s IH]; intros acc any; simpl; [done|].
  unfold is_digit_in. destruct (digit_value c) as [d|]; [|done].
  destruct (d <? base); [|done]. simpl. apply IH.
Qed.

(** The base and the digits that [detect_base] finds, by prefix. *)
Lemma detect_base_prefix s :
  detect_base s =
    match hex_prefixed s with
    | Some (String h r) =>
        if is_digit_in 16 h then (16, String h r) else (8, s)
    | Some EmptyString => (8, s)
    | None => (if leading_zero s then 8 else 10, s)
    end.
Proof.
  destruct s as [|z [|x [|h r]]]; simpl; [done| | |].
  - by destruct (code z =? 48).
  - destruct (code z =? 48); simpl; [|done].
    by destruct ((code x =? 120) || (code x =? 88)).
  - destruct (code z =? 48); simpl; [|done].
    destruct ((code x =? 120) || (code x =? 88)); simpl; [|done].
    by destruct (is_digit_in 16 h).
Qed.

(** After [0] an [x] ends the octal digits. *)
Lemma digits_0x z x r :
  hex_prefixed (String z (String x r)) = Some r →
  digits 8 (String z (String x r)) 0 false = (0, true, String x r).
Proof.
  simpl. destruct (Z.eqb_spec (code z) 48) as [Hz|]; simpl; [|done].
  unfold digit_value. rewrite Hz. simpl.
  destruct (Z.eqb_spec (code x) 120) as [Hx|]; simpl.
  { rewrite Hx. done. }
  destruct (Z.eqb_spec (code x) 88) as [Hx|]; simpl; [|done].
  rewrite Hx. done.
Qed.

(** The digits [strtol] reads after the sign. *)
Lemma digits_unsigned s :
  let '(base, s3) := detect_base s in
  let '(acc, any, rest) := digits base s3 0 false in
  if unsigned_literal s
  then acc = unsigned_value s ∧ any = true ∧ rest = EmptyString
  else any = false ∨ rest ≠ EmptyString.
Proof.
  rewrite detect_base_prefix. unfold unsigned_literal, unsigned_value.
  destruct (hex_prefixed s) as [[|h r]|] eqn:Hhex.
  - destruct s as [|z [|x r]]; try done.
    assert (r = EmptyString) as ->.
    { simpl in Hhex. by repeat case_match; simplify_eq. }
    rewrite digits_0x by done. by right.
  - unfold digit_string. simpl negb. rewrite andb_true_l.
    assert (is_digit_in 16 h = false → all_digits 16 (String h r) = false)
      as Hh by (by simpl; intros ->).
    destruct (is_digit_in 16 h) eqn:Hdigit.
    + destruct (all_digits 16 (String h r)) eqn:Hall.
      * by rewrite digits_all by done.
      * pose proof (digits_rest 16 (String h r) 0 false Hall) as Hrest.
        destruct (digits 16 (String h r) 0 false) as [[acc any] rest].
        by right.
    + rewrite Hh by done.
      destruct s as [|z [|x r']]; try done.
      assert (r' = String h r) as ->.
      { simpl in Hhex. by repeat case_match; simplify_eq. }
      rewrite digits_0x by done. by right.
  - destruct (leading_zero s) eqn:Hzero.
    + destruct (all_digits 8 s) eqn:Hall.
      * rewrite digits_all by done. by destruct s.
      * pose proof (digits_rest 8 s 0 false Hall) as Hrest.
        destruct (digits 8 s 0 false) as [[acc any] rest]. by right.
    + unfold digit_string. destruct s as [|c s]; [by left|].
      simpl negb. rewrite andb_true_l.
      destruct (all_digits 10 (String c s)) eqn:Hall.
      * by rewrite digits_all by done.
      * pose proof (digits_rest 10 (String c s) 0 false Hall) as Hrest.
        destruct (digits 10 (String c s) 0 false) as [[acc any] rest].
        by right.
Qed.

(** [strtol] converts the integer texts whole, to their value brought into
    the range of [long]. *)
Lemma strtol_integer_text arg :
  integer_text arg = true →
  strtol arg = (clamp_long (integer_text_value arg), EmptyString).
Proof.
  unfold integer_text, integer_text_value, integer_literal, integer_value,
    strtol.
  change (match skip_spaces arg with
          | EmptyString => (false, skip_spaces arg)
          | String c r =>
              if code c =? 45 then (true, r)
              else if code c =? 43 then (false, r)
              else (false, skip_spaces arg)
          end) with (strip_sign (skip_spaces arg)).
  destruct (strip_sign (skip_spaces arg)) as [neg s2]. simpl.
  pose proof (digits_unsigned s2) as H.
  destruct (detect_base s2) as [base s3].
  destruct (digits base s3 0 false) as [[acc any] rest].
  intros Hlit. rewrite Hlit in H. by destruct H as (-> & -> & ->).
Qed.

(** Of any other text but the empty one [strtol] leaves something. *)
Lemma strtol_other arg :
  integer_text arg = false → arg ≠ EmptyString →
  (strtol arg).2 ≠ EmptyString.
Proof.
  unfold integer_text, integer_literal, strtol.
  change (match skip_spaces arg with
          | EmptyString => (false, skip_spaces arg)
          | String c r =>
              if code c =? 45 then (true, r)
              else if code c =? 43 then (false, r)
              else (false, skip_spaces arg)
          end) with (strip_sign (skip_spaces arg)).
  destruct (strip_sign (skip_spaces arg)) as [neg s2]. simpl.
  pose proof (digits_unsigned s2) as H.
  destruct (detect_base s2) as [base s3].
  destruct (digits base s3 0 false) as [[acc any] rest].
  intros Hlit Harg. rewrite Hlit in H.
  destruct any; [|done]. by destruct H.
Qed.

End parser.

(** ** Dispatch *)

Section dispatch.

Implicit Types (input stack : CommandLine) (c : Command) (cs : list Command).

Lemma matches_agree input c : matches input c = true ↔ agree input c.
Proof.
  unfold matches, agree.
  rewrite andb_true_iff, !bool_decide_eq_true, strcmp_eq. done.
Qed.

(** The loop stops at the first entry that agrees with the input. *)
Lemma execute_loop_Some input cs evs :
  execute_loop input cs = Some evs →
  ∃ c, c ∈ cs ∧ agree input c ∧ evs = call input c.
Proof.
  induction cs as [|c cs IH]; simpl; [done|].
  destruct (matches input c) eqn:Hm.
  - intros [= <-]. exists c. rewrite <- matches_agree. split_and!; [left|done..].
  - intros (c' & ? & ? & ?)%IH. exists c'. split_and!; [by right|done..].
Qed.

Lemma execute_loop_None input cs :
  execute_loop input cs = None ↔ ∀ c, c ∈ cs → ¬ agree input c.
Proof.
  induction cs as [|c cs IH]; simpl.
  - split; [|done]. by intros _ c ?%elem_of_nil.
  - destruct (matches input c) eqn:Hm.
    + split; [done|]. intros H. destruct (H c); [left|]. by apply matches_agree.
    + rewrite IH. split.
      * intros H c' [->|?]%elem_of_cons; [|by apply H].
        rewrite <- matches_agree. by rewrite Hm.
      * intros H c' ?. apply H. by right.
Qed.

Lemma calls_call input c : calls (call input c) = [invocation input c].
Proof. unfold call, invocation. by destruct (argument_type input). Qed.

Lemma calls_app evs1 evs2 : calls (evs1 ++ evs2) = calls evs1 ++ calls evs2.
Proof. apply filter_app. Qed.

Lemma calls_print_command cs : calls (cs ≫= print_command) = [].
Proof.
  induction cs as [|c cs IH]; [done|].
  change ((c :: cs) ≫= print_command)
    with (print_command c ++ (cs ≫= print_command)).
  by rewrite calls_app, IH.
Qed.

End dispatch.

(** ** The shell with any [qsort] that sorts *)

Section shell.

Variable qsort : (Command → Command → Z) → list Command → list Command.

(** What ISO C asks of [qsort]: the array holds the same elements, in
    ascending order of the comparison function. *)
Hypothesis qsort_Permutation : ∀ compar l, qsort compar l ≡ₚ l.
Hypothesis qsort_sorted :
  ∀ l, StronglySorted name_le (qsort compareCommandNames l).

Implicit Types (input stack : CommandLine) (c : Command) (sh : Shell).

Lemma execute_unfold stack command_str sh input out :
  parseCommand command_str stack = Some (input, out) →
  execute qsort stack command_str sh =
    match execute_loop input (entries sh) with
    | Some evs => Some (sh, out ++ evs)
    | None =>
        Some ((listAvailableCommands qsort sh).1,
              out ++ not_supported command_str ++
              (listAvailableCommands qsort sh).2)
    end.
Proof.
  intros Hp. unfold execute. rewrite Hp. simpl.
  destruct (execute_loop input (entries sh)); [done|].
  by destruct (listAvailableCommands qsort sh).
Qed.

Lemma listAvailableCommands_count sh :
  commands_count (listAvailableCommands qsort sh).1 = commands_count sh.
Proof. done. Qed.

Lemma listAvailableCommands_line sh :
  input_line (listAvailableCommands qsort sh).1 = input_line sh ∧
  input_pos (listAvailableCommands qsort sh).1 = input_pos sh.
Proof. done. Qed.

Lemma listAvailableCommands_length sh :
  length (commands (listAvailableCommands qsort sh).1) = length (commands sh).
Proof using qsort_Permutation.
  simpl. rewrite length_app, (Permutation_length (qsort_Permutation _ _)).
  by rewrite <- length_app, take_drop.
Qed.

Lemma calls_listAvailableCommands sh :
  calls (listAvailableCommands qsort sh).2 = [].
Proof. apply calls_print_command. Qed.

(** After the listing the registered commands are the sorted ones. *)
Lemma listAvailableCommands_entries sh :
  entries (listAvailableCommands qsort sh).1 =
    qsort compareCommandNames (entries sh).
Proof using qsort_Permutation.
  unfold entries at 1. simpl. fold (entries sh).
  set (n := Z.to_nat (commands_count sh)).
  pose proof (Permutation_length (qsort_Permutation compareCommandNames
                                    (entries sh))) as Hlen.
  destruct (decide (n ≤ length (commands sh))%nat) as [Hn|Hn].
  - rewrite take_app_length'; [done|].
    rewrite Hlen. unfold entries. fold n. rewrite length_take. lia.
  - rewrite drop_ge, app_nil_r by lia. apply take_ge.
    rewrite Hlen. unfold entries. fold n. rewrite length_take. lia.
Qed.

Lemma listAvailableCommands_events sh :
  (listAvailableCommands qsort sh).2 =
    qsort compareCommandNames (entries sh) ≫= print_command.
Proof using qsort_Permutation.
  change ((listAvailableCommands qsort sh).2)
    with (entries (listAvailableCommands qsort sh).1 ≫= print_command).
  by rewrite listAvailableCommands_entries.
Qed.

(** C10: on the empty string [parseCommand] writes [argument_type] only
    -- [function_name], [int_argument] and [str_argument] are what they
    were -- so the scan of [execute] for an empty line compares the
    registered names with what the stack held in [function_name]: a handler
    is called exactly when a registered command without parameter has that
    name. *)
Theorem parseCommand_empty_frame stack sh :
  parseCommand EmptyString stack =
    Some (mkCommandLine (function_name stack) NONE (int_argument stack)
            (str_argument stack), [println "Received empty command"]) ∧
  ∃ sh' evs,
    execute qsort stack EmptyString sh = Some (sh', evs) ∧
    (calls evs ≠ [] ↔
     ∃ c, c ∈ entries sh ∧ name c = function_name stack ∧
          parameter_type c = NONE).
Proof.
  split; [done|].
  set (input := mkCommandLine (function_name stack) NONE (int_argument stack)
                  (str_argument stack)).
  rewrite (execute_unfold _ _ _ input [println "Received empty command"])
    by done.
  destruct (execute_loop input (entries sh)) as [evs|] eqn:Hloop.
  - eexists _, _. split; [done|].
    apply execute_loop_Some in Hloop as (c & Hc & [Hn Hk] & ->).
    rewrite calls_app, calls_call. split; [|done].
    intros _. by exists c.
  - eexists _, _. split; [done|].
    rewrite !calls_app, calls_listAvailableCommands.
    split; [done|]. intros (c & Hc & Hn & Hk).
    rewrite execute_loop_None in Hloop. by destruct (Hloop c Hc).
Qed.

(** What [execute] prints for the empty line when it calls no handler. *)
Lemma empty_line_unmatched stack sh sh' evs :
  execute qsort stack EmptyString sh = Some (sh', evs) → calls evs = [] →
  sh' = (listAvailableCommands qsort sh).1 ∧
  evs = println "Received empty command" ::
        not_supported EmptyString ++ (listAvailableCommands qsort sh).2.
Proof.
  set (input := mkCommandLine (function_name stack) NONE (int_argument stack)
                  (str_argument stack)).
  rewrite (execute_unfold _ _ _ input [println "Received empty command"])
    by done.
  destruct (execute_loop input (entries sh)) as [evs0|] eqn:Hloop.
  - apply execute_loop_Some in Hloop as (c & Hc & _ & ->).
    intros [= <- <-]. unfold call. by destruct (argument_type input).
  - by intros [= <- <-].
Qed.

(** C2, as the code has it: the empty line is not ignored silently.
    [parseCommand] prints "Received empty command" for it and sets the
    kind to [NONE], without a name; [execute] has no case for the empty
    line and goes on, so its output starts with that notice; a handler that
    takes an argument is never called for the empty line. *)
Theorem execute_empty_line stack sh :
  ∃ input sh' evs,
    parseCommand EmptyString stack =
      Some (input, [println "Received empty command"]) ∧
    argument_type input = NONE ∧
    execute qsort stack EmptyString sh = Some (sh', evs) ∧
    (∃ evs', evs = println "Received empty command" :: evs') ∧
    output evs ≠ EmptyString ∧
    (∀ e, e ∈ calls evs → ∃ f, e = CallVoid f).
Proof.
  set (input := mkCommandLine (function_name stack) NONE (int_argument stack)
                  (str_argument stack)).
  exists input.
  rewrite (execute_unfold _ _ _ input [println "Received empty command"])
    by done.
  destruct (execute_loop input (entries sh)) as [evs|] eqn:Hloop.
  - eexists _, _. split_and!; [done..| | |].
    + by eexists.
    + done.
    + apply execute_loop_Some in Hloop as (c & Hc & [Hn Hk] & ->).
      rewrite calls_app, calls_call.
      intros e ->%list_elem_of_singleton. by eexists.
  - eexists _, _. split_and!; [done..| | |].
    + by eexists.
    + done.
    + rewrite !calls_app, calls_listAvailableCommands.
      by intros e ?%elem_of_nil.
Qed.

(** C4: [execute] calls a handler exactly when a registered command agrees
    with the parsed line in name and in kind; it is then the handler of the
    first such command, called once with the decoded argument, and the
    registry is as before.  When no registered command agrees, no handler is
    called, and the raw input, the "not supported" notice and the help
    listing are printed. *)
Theorem execute_dispatch stack command_str sh input out :
  parseCommand command_str stack = Some (input, out) →
  ∃ sh' evs,
    execute qsort stack command_str sh = Some (sh', evs) ∧
    (calls evs ≠ [] ↔ ∃ c, c ∈ entries sh ∧ agree input c) ∧
    ((∃ c, c ∈ entries sh ∧ agree input c) →
     ∃ c, c ∈ entries sh ∧ agree input c ∧
          evs = out ++ call input c ∧ calls evs = [invocation input c] ∧
          sh' = sh) ∧
    ((∀ c, c ∈ entries sh → ¬ agree input c) →
     calls evs = [] ∧
     evs = out ++ not_supported command_str ++
           (listAvailableCommands qsort sh).2).
Proof.
  intros Hp. rewrite (execute_unfold _ _ _ _ _ Hp).
  pose proof (parseCommand_calls _ _ _ _ Hp) as Hout.
  destruct (execute_loop input (entries sh)) as [evs|] eqn:Hloop.
  - eexists _, _. split; [done|].
    apply execute_loop_Some in Hloop as (c & Hc & Hagree & ->).
    rewrite calls_app, calls_call, Hout. simpl. split_and!.
    + split; [|done]. intros _. by exists c.
    + intros _. by exists c.
    + intros H. by destruct (H c Hc).
  - eexists _, _. split; [done|].
    rewrite !calls_app, calls_listAvailableCommands, Hout.
    rewrite execute_loop_None in Hloop. split_and!.
    + split; [done|]. intros (c & Hc & ?). by destruct (Hloop c Hc).
    + intros (c & Hc & ?). by destruct (Hloop c Hc).
    + done.
Qed.

(** C8: the help listing prints every registered command once, one line
    "  name doc." each, in ascending order of the names under [strcmp];
    that order is the lexicographic order of the bytes, and it is total,
    transitive and antisymmetric on names. *)
Theorem listAvailableCommands_sorted sh :
  (∃ sorted,
     sorted ≡ₚ entries sh ∧ StronglySorted name_le sorted ∧
     entries (listAvailableCommands qsort sh).1 = sorted ∧
     (listAvailableCommands qsort sh).2 = sorted ≫= print_command ∧
     output (listAvailableCommands qsort sh).2 = help_text sorted) ∧
  (∀ a b, name_le a b ↔ name a = name b ∨ lex_lt (name a) (name b)) ∧
  (∀ a b, name_le a b ∨ name_le b a) ∧
  (∀ a b c, name_le a b → name_le b c → name_le a c) ∧
  (∀ a b, name_le a b → name_le b a → name a = name b).
Proof using qsort_Permutation qsort_sorted.
  split_and!.
  - exists (qsort compareCommandNames (entries sh)). split_and!.
    + apply qsort_Permutation.
    + apply qsort_sorted.
    + apply listAvailableCommands_entries.
    + apply listAvailableCommands_events.
    + by rewrite listAvailableCommands_events, output_print_command.
  - intros a b. unfold name_le, compar_le, compareCommandNames.
    rewrite <- strcmp_lex, <- strcmp_eq. lia.
  - apply name_le_total.
  - apply name_le_trans.
  - intros a b. unfold name_le, compar_le, compareCommandNames.
    rewrite (strcmp_flip (name a) (name b)), <- strcmp_eq. lia.
Qed.

(** C7, as the code has it: [execute] and the help listing never add,
    remove or alter a registered command and never change the count; a
    call of [execute] that calls a handler leaves the registry as it was;
    one that prints the help listing leaves the registered commands sorted
    by name in the array, the same commands in another order. *)
Theorem execute_registry stack command_str sh sh' evs :
  execute qsort stack command_str sh = Some (sh', evs) →
  commands_count sh' = commands_count sh ∧
  length (commands sh') = length (commands sh) ∧
  entries sh' ≡ₚ entries sh ∧
  (calls evs ≠ [] → sh' = sh) ∧
  (calls evs = [] →
   sh' = (listAvailableCommands qsort sh).1 ∧
   entries sh' = qsort compareCommandNames (entries sh)).
Proof using qsort_Permutation.
  intros Hexec.
  destruct (parseCommand command_str stack) as [[input out]|] eqn:Hp;
    [|by unfold execute in Hexec; rewrite Hp in Hexec].
  rewrite (execute_unfold _ _ _ _ _ Hp) in Hexec.
  pose proof (parseCommand_calls _ _ _ _ Hp) as Hout.
  destruct (execute_loop input (entries sh)) as [evs'|] eqn:Hloop;
    simplify_eq.
  - apply execute_loop_Some in Hloop as (c & Hc & Hagree & ->).
    rewrite calls_app, calls_call, Hout. done.
  - rewrite !calls_app, calls_listAvailableCommands, Hout.
    rewrite listAvailableCommands_length, listAvailableCommands_entries.
    split_and!; [done..|apply qsort_Permutation|done|done].
Qed.

End shell.

(** ** Registration *)

Section registry.

Implicit Types (sh : Shell) (tag : input_type).

Lemma array_set_Some {A} (a : list A) i f :
  0 <= i < Z.of_nat (length a) →
  array_set a i f = Some (alter f (Z.to_nat i) a).
Proof.
  intros Hi. unfold array_set.
  destruct (Z.leb_spec 0 i), (Z.ltb_spec i (Z.of_nat (length a))); done || lia.
Qed.

Lemma array_set_length {A} (a a' : list A) i f :
  array_set a i f = Some a' → length a' = length a ∧ 0 <= i < Z.of_nat (length a).
Proof.
  unfold array_set.
  destruct (Z.leb_spec 0 i), (Z.ltb_spec i (Z.of_nat (length a)));
    intros [= <-]. by rewrite length_alter.
Qed.

(** A full registry refuses the command and says so. *)
Lemma define_full tag name' function' doc_fstring sh :
  MAX_COMMANDS <= commands_count sh →
  addCommand name' doc_fstring sh =
    Some (false, sh, [println "Too many commands have been defined."]) ∧
  define tag name' function' doc_fstring sh =
    Some (sh, [println "Too many commands have been defined."]).
Proof.
  intros Hfull. unfold define, addCommand.
  by destruct (Z.ltb_spec (commands_count sh) MAX_COMMANDS); [lia|].
Qed.

(** Otherwise the four stores fill the slot [commands_count]. *)
Lemma define_room tag name' function' doc_fstring sh :
  registry_ok sh → commands_count sh < MAX_COMMANDS →
  ∃ sh1 sh',
    addCommand name' doc_fstring sh = Some (true, sh1, []) ∧
    define tag name' function' doc_fstring sh = Some (sh', []) ∧
    entries sh' = entries sh ++ [mkCommand name' function' doc_fstring tag] ∧
    commands_count sh' = commands_count sh + 1 ∧
    length (commands sh') = length (commands sh) ∧
    input_line sh' = input_line sh ∧ input_pos sh' = input_pos sh.
Proof.
  intros [Hlen [Hlo Hhi]] Hroom. unfold define, addCommand.
  destruct (Z.ltb_spec (commands_count sh) MAX_COMMANDS); [|lia].
  unfold MAX_COMMANDS in *.
  rewrite array_set_Some by lia. simpl.
  rewrite array_set_Some by (rewrite length_alter; lia). simpl.
  rewrite array_set_Some by (rewrite !length_alter; lia). simpl.
  rewrite array_set_Some by (rewrite !length_alter; lia). simpl.
  eexists _, _. split_and!; try done.
  - unfold entries. simpl.
    rewrite Z.mod_small by lia.
    replace (Z.to_nat (commands_count sh + 1))
      with (S (Z.to_nat (commands_count sh))) by lia.
    destruct (lookup_lt_is_Some_2 (commands sh) (Z.to_nat (commands_count sh)))
      as [x Hx]; [lia|].
    erewrite take_S_r; last first.
    { rewrite !list_lookup_alter_eq, Hx. simpl. done. }
    by rewrite !take_alter_ge by lia.
  - simpl. rewrite Z.mod_small; lia.
  - simpl. by rewrite !length_alter.
Qed.

(** C5: a registration call on a registry that holds [MAX_COMMANDS]
    commands fails in [addCommand], prints the warning and leaves the
    registry, with its count, as it was; otherwise it stores the command
    (name, handler, documentation and kind) after the registered ones, adds
    one to the count and prints nothing. *)
Theorem define_capacity def tag name' function' doc_fstring sh :
  (def, tag) ∈ [(defineCommand, NONE); (defineIntCommand, INT32);
                (defineStringCommand, STRING)] →
  registry_ok sh →
  MAX_COMMANDS = 10 ∧
  (commands_count sh = MAX_COMMANDS →
   addCommand name' doc_fstring sh =
     Some (false, sh, [println "Too many commands have been defined."]) ∧
   def name' function' doc_fstring sh =
     Some (sh, [println "Too many commands have been defined."])) ∧
  (commands_count sh ≠ MAX_COMMANDS →
   ∃ sh1 sh',
     addCommand name' doc_fstring sh = Some (true, sh1, []) ∧
     def name' function' doc_fstring sh = Some (sh', []) ∧
     entries sh' = entries sh ++ [mkCommand name' function' doc_fstring tag] ∧
     commands_count sh' = commands_count sh + 1 ∧
     registry_ok sh').
Proof.
  intros Hdef Hok.
  assert (def = define tag) as ->.
  { rewrite !elem_of_cons, elem_of_nil in Hdef.
    by destruct Hdef as [[= -> ->]|[[= -> ->]|[[= -> ->]|[]]]]. }
  split_and!; [done| |].
  - intros Hfull. apply define_full. lia.
  - intros Hroom. destruct Hok as [Hlen [Hlo Hhi]].
    destruct (define_room tag name' function' doc_fstring sh)
      as (sh1 & sh' & ? & ? & ? & Hcount & Hlen' & _); [done|lia|].
    exists sh1, sh'. unfold registry_ok. rewrite Hlen', Hcount.
    split_and!; done || lia.
Qed.

End registry.

(** ** The line assembler *)

Section assembler.

Variable qsort : (Command → Command → Z) → list Command → list Command.

Implicit Types (sh : Shell) (a bytes : list ascii) (b : ascii).

Lemma c_str_alter_NUL a n :
  (n < length a)%nat → c_str (alter (λ _, NUL) n a) = Some (until_nul (take n a)).
Proof.
  revert n. induction a as [|c a IH]; intros [|n] Hn; simpl in *; try lia.
  - done.
  - destruct (Ascii.eqb c NUL); [done|].
    change (list_alter ?f n a) with (alter f n a). by rewrite IH by lia.
Qed.

Lemma until_nul_length a : strlen (until_nul a) <= Z.of_nat (length a).
Proof.
  induction a as [|c a IH]; simpl; [done|].
  destruct (Ascii.eqb c NUL); rewrite ?strlen_cons; unfold strlen in *;
    simpl; lia.
Qed.

(** [execute] on a line of at most 39 characters stores inside the arrays,
    and it leaves the line buffer and its cursor alone. *)
Lemma execute_defined stack s sh :
  strlen s <= 39 →
  ∃ sh' evs,
    execute qsort stack s sh = Some (sh', evs) ∧
    input_line sh' = input_line sh ∧ input_pos sh' = input_pos sh.
Proof.
  intros Hlen.
  destruct (parseCommand_defined s stack Hlen) as [[input out] Hp].
  rewrite (execute_unfold _ _ _ _ _ _ Hp).
  destruct (execute_loop input (entries sh)); by eexists _, _.
Qed.

(** The end of a line: the terminator is stored at the cursor and the
    characters before it, up to a NUL byte among them, are executed. *)
Lemma processSerialInput_newline stack sh :
  line_ok sh →
  processSerialInput qsort stack "010" sh =
    execute qsort stack
      (until_nul (take (Z.to_nat (input_pos sh)) (input_line sh)))
      (set_input_line
         (alter (λ _, NUL) (Z.to_nat (input_pos sh)) (input_line sh)) sh)
    ≫= λ '(sh', evs), Some (set_input_pos 0 sh', println "" :: evs).
Proof.
  intros [Hlen Hpos]. unfold MAX_COMMAND_SIZE in *.
  unfold processSerialInput. simpl.
  rewrite array_set_Some by lia. simpl.
  rewrite c_str_alter_NUL by lia. done.
Qed.

(** A byte of the [default] case. *)
Lemma processSerialInput_ordinary stack b sh :
  line_ok sh → ordinary b = true →
  processSerialInput qsort stack b sh =
    let prompt := if input_pos sh =? 0 then [Print "> "] else [] in
    if input_pos sh <? MAX_COMMAND_SIZE - 1 then
      Some (set_input_pos (input_pos sh + 1)
              (set_input_line
                 (alter (λ _, b) (Z.to_nat (input_pos sh)) (input_line sh)) sh),
            prompt ++ [Print (String b EmptyString)])
    else Some (sh, prompt).
Proof.
  intros [Hlen Hpos] Hb. unfold ordinary in Hb.
  rewrite negb_true_iff, !orb_false_iff in Hb. destruct Hb as [[H10 H13] H8].
  unfold processSerialInput. rewrite H10, H13, H8. simpl.
  destruct (Z.ltb_spec (input_pos sh) (MAX_COMMAND_SIZE - 1)); [|done].
  unfold MAX_COMMAND_SIZE in *. by rewrite array_set_Some by lia.
Qed.

(** Every byte leaves the cursor in the buffer, and no store is outside. *)
Lemma processSerialInput_ok stack b sh :
  line_ok sh →
  ∃ sh' evs, processSerialInput qsort stack b sh = Some (sh', evs) ∧ line_ok sh'.
Proof.
  intros Hok. destruct (ordinary b) eqn:Hb.
  - rewrite processSerialInput_ordinary by done. simpl.
    destruct Hok as [Hlen Hpos].
    destruct (Z.ltb_spec (input_pos sh) (MAX_COMMAND_SIZE - 1)).
    + eexists _, _. split; [done|]. unfold line_ok. simpl.
      rewrite length_alter. lia.
    + by eexists _, _.
  - unfold ordinary in Hb. rewrite negb_false_iff in Hb.
    destruct (Z.eqb_spec (code b) 10) as [H10|H10].
    { assert (b = "010"%char) as -> by by apply code_inj.
      rewrite processSerialInput_newline by done.
      destruct Hok as [Hlen Hpos].
      destruct (execute_defined stack
        (until_nul (take (Z.to_nat (input_pos sh)) (input_line sh)))
        (set_input_line
           (alter (λ _, NUL) (Z.to_nat (input_pos sh)) (input_line sh)) sh))
        as (sh' & evs & -> & Hline & _).
      { etrans; [apply until_nul_length|]. rewrite length_take.
        unfold MAX_COMMAND_SIZE in *. lia. }
      simpl. eexists _, _. split; [done|]. unfold line_ok. simpl.
      rewrite Hline. simpl. rewrite length_alter.
      unfold MAX_COMMAND_SIZE in *. lia. }
    unfold processSerialInput.
    destruct (Z.eqb_spec (code b) 10); [done|].
    destruct (Z.eqb_spec (code b) 13); [by eexists _, _|].
    destruct (Z.eqb_spec (code b) 8); [|done].
    destruct Hok as [Hlen Hpos].
    destruct (Z.ltb_spec 0 (input_pos sh)); eexists _, _; (split; [done|]);
      unfold line_ok; simpl; lia.
Qed.

Lemma checkSerialInput_ok stacks bytes sh :
  line_ok sh →
  ∃ sh' evs,
    checkSerialInput qsort stacks bytes sh = Some (sh', evs) ∧ line_ok sh'.
Proof.
  revert stacks sh. induction bytes as [|b bytes IH]; intros stacks sh Hok.
  - by eexists _, _.
  - simpl.
    destruct (processSerialInput_ok (stacks O) b sh Hok) as (sh1 & evs1 & -> & Hok1).
    simpl.
    destruct (IH (λ k, stacks (S k)) sh1 Hok1) as (sh2 & evs2 & -> & Hok2).
    simpl. by eexists _, _.
Qed.

(** Ordinary bytes fill the buffer up to 39 characters; the rest is
    dropped. *)
Lemma checkSerialInput_fill stacks bytes sh :
  line_ok sh → Forall (λ b, ordinary b = true) bytes →
  ∃ sh' evs,
    checkSerialInput qsort stacks bytes sh = Some (sh', evs) ∧
    line_ok sh' ∧
    input_pos sh' =
      Z.min (input_pos sh + Z.of_nat (length bytes)) (MAX_COMMAND_SIZE - 1) ∧
    take (Z.to_nat (input_pos sh')) (input_line sh') =
      take (Z.to_nat (input_pos sh)) (input_line sh) ++
      take (Z.to_nat (MAX_COMMAND_SIZE - 1 - input_pos sh)) bytes.
Proof.
  revert stacks sh.
  induction bytes as [|b bytes IH]; intros stacks sh Hok Hbytes.
  - eexists _, _. split_and!; [done..| |].
    + destruct Hok as [_ ?]. simpl. lia.
    + by rewrite take_nil, app_nil_r.
  - apply Forall_cons in Hbytes as [Hb Hbytes]. simpl.
    rewrite processSerialInput_ordinary by done. simpl.
    pose proof Hok as [Hlen Hpos]. unfold MAX_COMMAND_SIZE in *.
    destruct (Z.ltb_spec (input_pos sh) (40 - 1)) as [Hlt|Hge]; simpl.
    + set (sh1 := set_input_pos _ _).
      destruct (IH (λ k, stacks (S k)) sh1) as (sh2 & evs2 & -> & ? & Hp & Ht);
        [|done|].
      { unfold line_ok, sh1. simpl. rewrite length_alter.
        unfold MAX_COMMAND_SIZE. lia. }
      simpl. eexists _, _. split_and!; [done..| |].
      * rewrite Hp. unfold sh1. simpl. lia.
      * rewrite Ht. unfold sh1. simpl.
        replace (Z.to_nat (input_pos sh + 1))
          with (S (Z.to_nat (input_pos sh))) by lia.
        destruct (lookup_lt_is_Some_2 (input_line sh) (Z.to_nat (input_pos sh)))
          as [x Hx]; [lia|].
        erewrite take_S_r; last first.
        { rewrite list_lookup_alter_eq, Hx. simpl. done. }
        rewrite take_alter_ge by lia. rewrite <- app_assoc. f_equal.
        replace (Z.to_nat (40 - 1 - input_pos sh))
          with (S (Z.to_nat (40 - 1 - (input_pos sh + 1)))) by lia.
        done.
    + destruct (IH (λ k, stacks (S k)) sh) as (sh2 & evs2 & -> & ? & Hp & Ht);
        [done..|].
      simpl. eexists _, _. split_and!; [done..| |].
      * rewrite Hp. lia.
      * rewrite Ht.
        replace (Z.to_nat (40 - 1 - input_pos sh)) with O by lia. done.
Qed.

(** C9: whatever bytes arrive, no store is outside [input_line] and the
    cursor stays at most [MAX_COMMAND_SIZE - 1]; at that position an
    ordinary byte changes nothing and prints nothing; and of a line of
    ordinary bytes the first [MAX_COMMAND_SIZE - 1] are kept, the
    terminator is stored after them, and that is what is executed. *)
Theorem processSerialInput_bounded stacks bytes sh :
  line_ok sh →
  MAX_COMMAND_SIZE = 40 ∧
  (∃ sh' evs,
     checkSerialInput qsort stacks bytes sh = Some (sh', evs) ∧ line_ok sh') ∧
  (∀ stack b,
     ordinary b = true → input_pos sh = MAX_COMMAND_SIZE - 1 →
     processSerialInput qsort stack b sh = Some (sh, [])) ∧
  (Forall (λ b, ordinary b = true) bytes → input_pos sh = 0 →
   ∃ sh' evs,
     checkSerialInput qsort stacks bytes sh = Some (sh', evs) ∧
     input_pos sh' =
       Z.min (Z.of_nat (length bytes)) (MAX_COMMAND_SIZE - 1) ∧
     take (Z.to_nat (input_pos sh')) (input_line sh') = take 39 bytes ∧
     ∀ stack,
       processSerialInput qsort stack "010" sh' =
         execute qsort stack (until_nul (take 39 bytes))
           (set_input_line
              (alter (λ _, NUL) (Z.to_nat (input_pos sh')) (input_line sh'))
              sh')
         ≫= λ '(sh'', evs'), Some (set_input_pos 0 sh'', println "" :: evs')).
Proof.
  intros Hok. split_and!; [done| | |].
  - by apply checkSerialInput_ok.
  - intros stack b Hb Hpos.
    rewrite processSerialInput_ordinary by done. simpl. rewrite Hpos. done.
  - intros Hbytes Hpos.
    destruct (checkSerialInput_fill stacks bytes sh Hok Hbytes)
      as (sh' & evs & Hrun & Hok' & Hp & Ht).
    rewrite Hpos in Hp, Ht. simpl in Ht.
    exists sh', evs. split_and!; [done..|].
    intros stack. rewrite processSerialInput_newline by done. by rewrite Ht.
Qed.

End assembler.

(** ** What the parser makes of a line with a space *)

Section classification.

Implicit Types (s arg : string) (stack : CommandLine).

(** C1, where the code departs from it: for a name of at most 38
    characters followed by one space and nothing else, [parseCommand] copies
    the empty argument, [strtol] converts nothing and leaves [end] at the
    terminator, and the test of [*end] gives the kind [INT32] with the value
    0, not [STRING]. *)
Theorem parseCommand_trailing_space s stack :
  strchr s " " = None → strlen s <= 38 →
  parseCommand (s +:+ " ") stack =
    Some (mkCommandLine s INT32 0 EmptyString, []).
Proof.
  intros Hs Hlen. rewrite parseCommand_space by done. simpl.
  by destruct (Z.to_nat (38 - strlen s)).
Qed.

(** C3, where the code departs from it: when the first space of the line
    is at offset 40 or more, the copy into [function_name] is made with the
    size [first_space - command + 1], not with [MAX_COMMAND_SIZE]; it stores
    as many bytes, more than the array has, and nothing is cut. *)
Theorem parseCommand_name_overflow s arg stack :
  strchr s " " = None → MAX_COMMAND_SIZE <= strlen s < 2 ^ 32 - 1 →
  strchr (s +:+ String " " arg) " " = Some (strlen s) ∧
  strlcpy_stored (s +:+ String " " arg) (to_size_t (strlen s + 1)) =
    strlen s + 1 ∧
  MAX_COMMAND_SIZE < strlen s + 1 ∧
  parseCommand (s +:+ String " " arg) stack = None.
Proof.
  intros Hs [Hlo Hhi]. unfold MAX_COMMAND_SIZE in *.
  pose proof (strlen_nonneg arg).
  assert (strlcpy_stored (s +:+ String " " arg) (to_size_t (strlen s + 1)) =
          strlen s + 1) as Hstored.
  { rewrite to_size_t_small by lia. unfold strlcpy_stored.
    destruct (Z.eqb_spec (strlen s + 1) 0); [lia|].
    rewrite strlen_app, strlen_cons. lia. }
  split_and!; [by apply strchr_app|done|lia|].
  unfold parseCommand. rewrite strlen_app, strlen_cons.
  destruct (Z.eqb_spec (strlen s + (strlen arg + 1)) 0); [lia|].
  rewrite strchr_app by done. cbv beta iota.
  by rewrite (strlcpy_outside MAX_COMMAND_SIZE (function_name stack)
                (s +:+ String " " arg) (to_size_t (strlen s + 1)))
    by (rewrite Hstored; unfold MAX_COMMAND_SIZE; lia).
Qed.

(** C6, as the code has it: in a line of at most 39 characters with a
    space, an argument that is not empty gets the kind [INT32] exactly when
    [strtol] with base 0 converts all of it, that is when it is white space
    followed by a signed integer literal (sign, [0x] or [0] prefix, digits
    of the base); the value stored is the value of the literal brought into
    the range of a 32-bit [long], 255 for [0xFF]; any other argument gets
    the kind [STRING], and no line is refused. *)
Theorem parseCommand_classifies s arg stack :
  strchr s " " = None → arg ≠ EmptyString →
  strlen s + 1 + strlen arg <= 39 →
  (∃ input,
     parseCommand (s +:+ String " " arg) stack = Some (input, []) ∧
     function_name input = s ∧ str_argument input = arg ∧
     argument_type input = (if integer_text arg then INT32 else STRING) ∧
     (integer_text arg = true →
      int_argument input = clamp_long (integer_text_value arg))) ∧
  parseCommand "ap 0xFF" stack =
    Some (mkCommandLine "ap" INT32 255 "0xFF", []).
Proof.
  intros Hs Harg Hlen. split; [|done].
  rewrite parseCommand_space_short by done.
  eexists. split; [done|]. simpl. unfold classify.
  destruct (integer_text arg) eqn:Htext.
  - rewrite strtol_integer_text by done. done.
  - pose proof (strtol_other arg Htext Harg).
    by rewrite bool_decide_eq_false_2.
Qed.

End classification.

(** ** The sketch *)

(** The statements above at the commands of the sketch, with [merge_qsort]
    for [qsort] and nothing on the stack. *)

(** The line [ap] with one space. *)
Lemma parseCommand_trailing_space_ap :
  strchr "ap" " " = None ∧ strlen "ap" <= 38 ∧
  parseCommand "ap " zeroed = Some (mkCommandLine "ap" INT32 0 EmptyString, []).
Proof.
  split_and!; [reflexivity|by vm_compute|].
  apply (parseCommand_trailing_space "ap" zeroed); [reflexivity|by vm_compute].
Defined.

(** A name of 40 characters before the space. *)
Lemma parseCommand_name_overflow_40 :
  parseCommand "aaaaaaaaaaaaaaaaaaaaaaaaaaaaaaaaaaaaaaaa 1" zeroed = None.
Proof.
  apply (parseCommand_name_overflow "aaaaaaaaaaaaaaaaaaaaaaaaaaaaaaaaaaaaaaaa"
           "1" zeroed); [reflexivity|by vm_compute].
Defined.

(** A hexadecimal argument. *)
Lemma parseCommand_classifies_0xFF :
  ∃ input,
    parseCommand "ap 0xFF" zeroed = Some (input, []) ∧
    function_name input = "ap" ∧ str_argument input = "0xFF" ∧
    argument_type input = INT32 ∧
    (integer_text "0xFF" = true → int_argument input = 255).
Proof.
  apply (parseCommand_classifies "ap" "0xFF" zeroed);
    [reflexivity|discriminate|by vm_compute].
Defined.

(** Two spaces: [strtol] skips the second one, which no literal has. *)
Lemma parseCommand_leading_space :
  parseCommand "ap  5" zeroed = Some (mkCommandLine "ap" INT32 5 " 5", []) ∧
  integer_literal " 5" = false.
Proof. split; reflexivity. Qed.

(** The empty line on the sketch, with nothing on the stack: the notice
    of [parseCommand], then the "not supported" notice and the listing. *)
Lemma execute_empty_line_sketch :
  ∃ sh' evs,
    execute merge_qsort zeroed EmptyString sketch = Some (sh', evs) ∧
    calls evs = [] ∧
    output evs =
      "Received empty command" +:+ CRLF +:+
      "'' not supported. Available commands :" +:+ CRLF +:+
      "  ap 0/1 (Enables/disables access point)." +:+ CRLF +:+
      "  ap_pwd abc (Sets AP password to abc)." +:+ CRLF +:+
      "  name abc (Sets ThingName to abc)." +:+ CRLF +:+
      "  reset (Restarts the ESP)." +:+ CRLF +:+
      "  reset_config (Resets the complete IotWeb config)." +:+ CRLF +:+
      "  save_config (Saves the config to EEPROM)." +:+ CRLF +:+
      "  ssid name (Sets SSID to name)." +:+ CRLF +:+
      "  wifi 0/1 (Enables/disables WiFi)." +:+ CRLF +:+
      "  wifi_pwd abc (Sets WiFi password to abc)." +:+ CRLF.
Proof. eexists _, _. split; [reflexivity|]. split; reflexivity. Qed.

(** The empty line when the stack holds the name of a command without
    parameter: its handler is called. *)
Lemma stale_name_dispatch :
  ∃ sh' evs,
    execute merge_qsort (mkCommandLine "save_config" STRING 0 "junk")
      EmptyString sketch = Some (sh', evs) ∧
    calls evs = [CallVoid 2].
Proof. eexists _, _. split; reflexivity. Qed.

(** [ap] with one space after it on the sketch: the access point is
    switched off. *)
Lemma trailing_space_dispatch :
  ∃ sh' evs,
    execute merge_qsort zeroed "ap " sketch = Some (sh', evs) ∧
    calls evs = [CallInt 8 0].
Proof. eexists _, _. split; reflexivity. Qed.

(** [help] on the sketch: the registry is sorted where it stands. *)
Lemma execute_help_reorders :
  ∃ sh' evs,
    execute merge_qsort zeroed "help" sketch = Some (sh', evs) ∧
    name <$> entries sketch =
      ["reset"; "save_config"; "reset_config"; "ssid"; "wifi_pwd"; "ap_pwd";
       "name"; "ap"; "wifi"] ∧
    name <$> entries sh' =
      ["ap"; "ap_pwd"; "name"; "reset"; "reset_config"; "save_config";
       "ssid"; "wifi"; "wifi_pwd"] ∧
    commands sh' ≠ commands sketch.
Proof.
  eexists _, _. split; [reflexivity|]. split_and!; [reflexivity..|].
  vm_compute. discriminate.
Qed.

(** [ap] takes a number: with a text it is not called. *)
Lemma execute_dispatch_ap_yes :
  ∃ sh' evs,
    execute merge_qsort zeroed "ap yes" sketch = Some (sh', evs) ∧
    calls evs = [] ∧
    evs = not_supported "ap yes" ++ (listAvailableCommands merge_qsort sketch).2.
Proof.
  destruct (execute_dispatch merge_qsort zeroed "ap yes" sketch
              (mkCommandLine "ap" STRING 0 "yes") [] eq_refl)
    as (sh' & evs & Hexec & _ & _ & Hnone).
  exists sh', evs. split; [done|]. apply Hnone.
  intros c Hc [Hname Hkind]. vm_compute in Hc.
  repeat (apply elem_of_cons in Hc as [->|Hc]; [done|]).
  by apply elem_of_nil in Hc.
Defined.

(** A tenth command fits. *)
Lemma define_capacity_sketch :
  registry_ok sketch ∧
  ∃ sh1 sh',
    addCommand "help" "(Lists the commands)" sketch = Some (true, sh1, []) ∧
    defineCommand "help" 10 "(Lists the commands)" sketch = Some (sh', []) ∧
    entries sh' =
      entries sketch ++ [mkCommand "help" 10 "(Lists the commands)" NONE] ∧
    commands_count sh' = commands_count sketch + 1 ∧
    registry_ok sh'.
Proof.
  assert (registry_ok sketch) as Hok by (by vm_compute).
  split; [done|].
  apply (define_capacity defineCommand NONE "help" 10 "(Lists the commands)"
           sketch); [left|done|by vm_compute].
Defined.

(** [help] keeps the nine commands. *)
Lemma execute_registry_help :
  ∃ sh' evs,
    execute merge_qsort zeroed "help" sketch = Some (sh', evs) ∧
    commands_count sh' = commands_count sketch ∧
    length (commands sh') = length (commands sketch) ∧
    entries sh' ≡ₚ entries sketch.
Proof.
  eexists _, _. split; [reflexivity|].
  destruct (execute_registry merge_qsort merge_qsort_Permutation zeroed "help"
              sketch _ _ eq_refl) as (Hcount & Hlen & Hperm & _).
  split_and!; [exact Hcount|exact Hlen|exact Hperm].
Defined.

(** The listing of the sketch. *)
Lemma listAvailableCommands_sorted_sketch :
  ∃ sorted,
    sorted ≡ₚ entries sketch ∧ StronglySorted name_le sorted ∧
    entries (listAvailableCommands merge_qsort sketch).1 = sorted ∧
    (listAvailableCommands merge_qsort sketch).2 = sorted ≫= print_command ∧
    output (listAvailableCommands merge_qsort sketch).2 = help_text sorted.
Proof.
  apply (listAvailableCommands_sorted merge_qsort merge_qsort_Permutation
           merge_qsort_sorted sketch).
Defined.

(** A line typed at the console. *)
Lemma processSerialInput_bounded_sketch :
  line_ok sketch ∧
  ∃ sh' evs,
    checkSerialInput merge_qsort (λ _, zeroed)
      ["w"; "i"; "f"; "i"; " "; "1"; "010"]%char sketch = Some (sh', evs) ∧
    line_ok sh'.
Proof.
  assert (line_ok sketch) as Hok by (by vm_compute).
  split; [done|].
  apply (processSerialInput_bounded merge_qsort (λ _, zeroed)
           ["w"; "i"; "f"; "i"; " "; "1"; "010"]%char sketch Hok).
Defined.

(** Two lines in one batch are executed in the order of arrival. *)
Lemma two_lines_in_order :
  ∃ sh' evs,
    checkSerialInput merge_qsort (λ _, zeroed)
      ["n"; "a"; "m"; "e"; " "; "a"; "010";
       "n"; "a"; "m"; "e"; " "; "b"; "010"]%char sketch = Some (sh', evs) ∧
    calls evs = [CallStr 7 "a"; CallStr 7 "b"] ∧
    commands sh' = commands sketch ∧ input_pos sh' = 0.
Proof.
  eexists _, _. split; [vm_compute; reflexivity|].
  split_and!; vm_compute; reflexivity.
Qed.

(** Backspace at the start of a line does nothing. *)
Lemma backspace_at_start stack sh :
  input_pos sh = 0 →
  processSerialInput merge_qsort stack "008" sh = Some (sh, []).
Proof. intros Hpos. unfold processSerialInput. simpl. by rewrite Hpos. Qed.

(** Of 45 characters typed before the end of the line, 39 are echoed and
    executed. *)
Lemma long_line_cut :
  ∃ sh' evs rest,
    checkSerialInput merge_qsort (λ _, zeroed)
      (replicate 45 "a"%char ++ ["010"%char]) sketch = Some (sh', evs) ∧
    calls evs = [] ∧
    output evs =
      "> aaaaaaaaaaaaaaaaaaaaaaaaaaaaaaaaaaaaaaa" +:+ CRLF +:+
      "'aaaaaaaaaaaaaaaaaaaaaaaaaaaaaaaaaaaaaaa' not supported. " +:+
      "Available commands :" +:+ CRLF +:+ rest.
Proof.
  eexists _, _, _. split; [vm_compute; reflexivity|].
  split; vm_compute; reflexivity.
Qed.

(** ** More on the parser *)

Section parser_shape.

Implicit Types (s arg : string) (stack input : CommandLine).

Lemma str_take_drop n s : str_take n s +:+ str_drop n s = s.
Proof.
  revert s. induction n as [|n IH]; intros [|c s]; simpl; try done.
  by rewrite IH.
Qed.

Lemma strchr_take n s c : strchr s c = None → strchr (str_take n s) c = None.
Proof.
  revert s. induction n as [|n IH]; intros [|a s]; simpl; try done.
  destruct (Ascii.eqb a c); [done|].
  destruct (strchr s c) eqn:Hs; simpl; [done|]. intros _. by rewrite IH.
Qed.

(** The first space at offset 39: the name fills [function_name], and the
    size of the second copy is 0. *)
Lemma parseCommand_space_39 s arg stack :
  strchr s " " = None → strlen s = 39 →
  parseCommand (s +:+ String " " arg) stack =
    Some (mkCommandLine s (classify (str_argument stack))
            (strtol (str_argument stack)).1 (str_argument stack), []).
Proof.
  intros Hs Hlen. unfold parseCommand.
  pose proof (strlen_nonneg arg).
  rewrite strlen_app, strlen_cons.
  destruct (Z.eqb_spec (strlen s + (strlen arg + 1)) 0); [lia|].
  rewrite strchr_app by done. cbv beta iota.
  rewrite Hlen. unfold MAX_COMMAND_SIZE.
  rewrite (strlcpy_fits 40 _ _ (to_size_t (39 + 1))) by done.
  change (to_size_t (39 + 1) - 1) with 39.
  replace (Z.to_nat 39) with (String.length s) by (unfold strlen in Hlen; lia).
  rewrite str_take_app. simpl. unfold classify.
  by destruct (strtol (str_argument stack)) as [v e].
Qed.

(** The first space at offset 40 or more: the first copy is outside. *)
Lemma parseCommand_outside s arg stack :
  strchr s " " = None → MAX_COMMAND_SIZE <= strlen s < 2 ^ 32 - 1 →
  parseCommand (s +:+ String " " arg) stack = None.
Proof.
  intros Hs [Hlo Hhi]. unfold MAX_COMMAND_SIZE in *.
  pose proof (strlen_nonneg arg).
  unfold parseCommand. rewrite strlen_app, strlen_cons.
  destruct (Z.eqb_spec (strlen s + (strlen arg + 1)) 0); [lia|].
  rewrite strchr_app by done. cbv beta iota.
  rewrite (strlcpy_outside MAX_COMMAND_SIZE (function_name stack)
             (s +:+ String " " arg) (to_size_t (strlen s + 1))); [done|].
  rewrite to_size_t_small by lia. unfold strlcpy_stored, MAX_COMMAND_SIZE.
  destruct (Z.eqb_spec (strlen s + 1) 0); [lia|].
  rewrite strlen_app, strlen_cons. lia.
Qed.

(** X1: a line without a space that is not empty is the name: it is copied
    into [function_name] cut to 39 characters, whole when it has no more,
    the kind is [NONE], nothing is printed, and [int_argument] and
    [str_argument] keep what the record held. *)
Theorem parseCommand_name_only s stack :
  s ≠ EmptyString → strchr s " " = None →
  ∃ input,
    parseCommand s stack = Some (input, []) ∧
    function_name input = str_take 39 s ∧
    strlen (function_name input) = Z.min (strlen s) 39 ∧
    (strlen s <= 39 → function_name input = s) ∧
    argument_type input = NONE ∧
    int_argument input = int_argument stack ∧
    str_argument input = str_argument stack.
Proof.
  intros Hne Hs. rewrite parseCommand_no_space by done.
  eexists. split; [done|].
  cbn [function_name argument_type int_argument str_argument].
  split_and!; try done.
  - rewrite str_take_length. lia.
  - intros Hlen. apply str_take_all. unfold strlen in Hlen. lia.
Qed.

(** X2: [parseCommand] stores inside its arrays exactly when the line has
    no space or has its first space at an offset below [MAX_COMMAND_SIZE]
    (for the lines a 32-bit machine can hold). *)
Theorem parseCommand_defined_iff s stack :
  strlen s < 2 ^ 32 →
  is_Some (parseCommand s stack) ↔
  match strchr s " " with
  | Some first_space => first_space < MAX_COMMAND_SIZE
  | None => True
  end.
Proof.
  intros Hlen. destruct (strchr s " ") as [i|] eqn:Hi.
  - apply strchr_split in Hi as (s1 & s2 & -> & Hs1 & <-).
    rewrite strlen_app, strlen_cons in Hlen.
    pose proof (strlen_nonneg s1). pose proof (strlen_nonneg s2).
    unfold MAX_COMMAND_SIZE.
    destruct (Z.le_gt_cases (strlen s1) 38).
    { rewrite parseCommand_space by done. split; [lia|done]. }
    destruct (Z.eq_dec (strlen s1) 39).
    { rewrite parseCommand_space_39 by done. split; [lia|done]. }
    rewrite parseCommand_outside by (done || (unfold MAX_COMMAND_SIZE; lia)).
    split; [by intros [? ?]|lia].
  - destruct (decide (s = EmptyString)) as [->|Hne]; [done|].
    by rewrite parseCommand_no_space.
Qed.

(** X3: after a name of at most 38 characters and a space, [str_argument]
    receives the rest of the line cut so that name, space and argument make
    at most 39 characters; kind and value are those of the cut text, not of
    the text in the line. *)
Theorem parseCommand_argument_cut s arg stack :
  strchr s " " = None → strlen s <= 38 →
  ∃ input,
    parseCommand (s +:+ String " " arg) stack = Some (input, []) ∧
    function_name input = s ∧
    str_argument input = str_take (Z.to_nat (38 - strlen s)) arg ∧
    strlen (function_name input) + 1 + strlen (str_argument input) <= 39 ∧
    (strlen s + 1 + strlen arg <= 39 → str_argument input = arg) ∧
    argument_type input = classify (str_argument input) ∧
    int_argument input = (strtol (str_argument input)).1.
Proof.
  intros Hs Hlen. rewrite parseCommand_space by done.
  eexists. split; [done|]. cbn [function_name argument_type int_argument str_argument].
  pose proof (strlen_nonneg s). pose proof (strlen_nonneg arg).
  split_and!; try done.
  - rewrite str_take_length. lia.
  - intros Hfit. apply str_take_all. unfold strlen in *. lia.
Qed.

(** X4: when the first space of the line is at offset 39, the size given
    to the copy of the argument is 0: [str_argument] is not written, and
    the kind and the value are computed from what the record held there. *)
Theorem parseCommand_argument_unset s arg stack :
  strchr s " " = None → strlen s = MAX_COMMAND_SIZE - 1 →
  to_size_t (MAX_COMMAND_SIZE - strlen s - 1) = 0 ∧
  ∃ input,
    parseCommand (s +:+ String " " arg) stack = Some (input, []) ∧
    function_name input = s ∧
    str_argument input = str_argument stack ∧
    argument_type input = classify (str_argument stack) ∧
    int_argument input = (strtol (str_argument stack)).1.
Proof.
  unfold MAX_COMMAND_SIZE. intros Hs Hlen. split; [by rewrite Hlen|].
  rewrite parseCommand_space_39 by done. by eexists.
Qed.

(** The name and the kind that come out of a line that is not empty. *)
Lemma parse_shape s stack input out :
  strlen s < 2 ^ 32 → s ≠ EmptyString →
  parseCommand s stack = Some (input, out) →
  out = [] ∧
  (∃ rest, s = function_name input +:+ rest) ∧
  strchr (function_name input) " " = None ∧
  strlen (function_name input) <= 39 ∧
  (argument_type input = NONE ↔ strchr s " " = None).
Proof.
  intros Hlen Hne. destruct (strchr s " ") as [i|] eqn:Hi.
  - apply strchr_split in Hi as (s1 & s2 & -> & Hs1 & <-).
    rewrite strlen_app, strlen_cons in Hlen.
    pose proof (strlen_nonneg s1). pose proof (strlen_nonneg s2).
    assert (∀ arg, classify arg ≠ NONE) as Hkind.
    { intros arg. unfold classify. by case_bool_decide. }
    assert (strchr (s1 +:+ String " " s2) " " ≠ None) as Hsp.
    { by rewrite strchr_app. }
    destruct (Z.le_gt_cases (strlen s1) 38).
    { rewrite parseCommand_space by done. intros [= <- <-].
      cbn [function_name argument_type int_argument str_argument].
      split_and!; [done|by eexists|done|lia|]. split; [|done].
      intros Hk. by apply Hkind in Hk. }
    destruct (Z.eq_dec (strlen s1) 39).
    { rewrite parseCommand_space_39 by done. intros [= <- <-].
      cbn [function_name argument_type int_argument str_argument].
      split_and!; [done|by eexists|done|lia|]. split; [|done].
      intros Hk. by apply Hkind in Hk. }
    by rewrite parseCommand_outside by (done || (unfold MAX_COMMAND_SIZE; lia)).
  - rewrite parseCommand_no_space by done.
    intros [<- <-]%(inj Some)%pair_equal_spec.
    cbn [function_name argument_type int_argument str_argument].
    split_and!; [done| | | |done].
    + exists (str_drop 39 s). by rewrite str_take_drop.
    + by apply strchr_take.
    + rewrite str_take_length. lia.
Qed.

(** X5: whenever [parseCommand] takes a line that is not empty, it prints
    nothing, [function_name] is a prefix of the line of at most 39
    characters without a space, and the kind is [NONE] exactly when the
    line has no space. *)
Theorem parseCommand_shape s stack input out :
  strlen s < 2 ^ 32 → s ≠ EmptyString →
  parseCommand s stack = Some (input, out) →
  out = [] ∧
  (∃ rest, s = function_name input +:+ rest) ∧
  strchr (function_name input) " " = None ∧
  strlen (function_name input) <= 39 ∧
  (argument_type input = NONE ↔ strchr s " " = None).
Proof. apply parse_shape. Qed.

End parser_shape.

(** ** More on dispatch and listing *)

Section dispatch_order.

Variable qsort : (Command → Command → Z) → list Command → list Command.
Hypothesis qsort_Permutation : ∀ compar l, qsort compar l ≡ₚ l.
Hypothesis qsort_sorted :
  ∀ l, StronglySorted name_le (qsort compareCommandNames l).

Implicit Types (input stack : CommandLine) (c : Command) (sh : Shell)
  (cs : list Command).

Lemma execute_loop_app input cs1 cs2 :
  execute_loop input (cs1 ++ cs2) =
    match execute_loop input cs1 with
    | Some evs => Some evs
    | None => execute_loop input cs2
    end.
Proof.
  induction cs1 as [|c cs1 IH]; simpl; [done|].
  by destruct (matches input c).
Qed.

(** The loop does not depend on the order of the commands when at most one
    of them agrees with the input. *)
Lemma execute_loop_Permutation input cs cs' :
  cs ≡ₚ cs' →
  (∀ c1 c2, c1 ∈ cs → c2 ∈ cs → agree input c1 → agree input c2 → c1 = c2) →
  execute_loop input cs = execute_loop input cs'.
Proof.
  intros Hperm Huniq.
  destruct (execute_loop input cs) as [evs|] eqn:H1,
    (execute_loop input cs') as [evs'|] eqn:H2; [| | |done].
  - apply execute_loop_Some in H1 as (c & Hc & Hagree & ->).
    apply execute_loop_Some in H2 as (c' & Hc' & Hagree' & ->).
    rewrite <- Hperm in Hc'. by rewrite (Huniq c c').
  - apply execute_loop_Some in H1 as (c & Hc & Hagree & ->).
    rewrite execute_loop_None in H2. rewrite Hperm in Hc.
    by destruct (H2 c Hc).
  - apply execute_loop_Some in H2 as (c & Hc & Hagree & ->).
    rewrite execute_loop_None in H1. rewrite <- Hperm in Hc.
    by destruct (H1 c Hc).
Qed.

(** What [execute] keeps of the state. *)
Lemma execute_keeps stack command_str sh sh' evs :
  execute qsort stack command_str sh = Some (sh', evs) →
  commands_count sh' = commands_count sh ∧
  length (commands sh') = length (commands sh) ∧
  entries sh' ≡ₚ entries sh ∧
  input_line sh' = input_line sh ∧ input_pos sh' = input_pos sh.
Proof using qsort_Permutation.
  intros Hexec.
  destruct (parseCommand command_str stack) as [[input out]|] eqn:Hp;
    [|by unfold execute in Hexec; rewrite Hp in Hexec].
  rewrite (execute_unfold _ _ _ _ _ _ Hp) in Hexec.
  destruct (execute_loop input (entries sh)); simplify_eq; [done|].
  rewrite listAvailableCommands_length, listAvailableCommands_entries
    by done.
  split_and!; [done..|apply qsort_Permutation|done|done].
Qed.

Lemma NoDup_fmap_inj {A B} (f : A → B) (l : list A) x y :
  NoDup (f <$> l) → x ∈ l → y ∈ l → f x = f y → x = y.
Proof.
  induction l as [|a l IH]; simpl; [by intros _ ?%elem_of_nil|].
  rewrite NoDup_cons. intros [Ha Hl] Hx Hy Hf.
  apply elem_of_cons in Hx as [->|Hx]; apply elem_of_cons in Hy as [->|Hy].
  - done.
  - destruct Ha. rewrite Hf. by apply list_elem_of_fmap_2.
  - destruct Ha. rewrite <- Hf. by apply list_elem_of_fmap_2.
  - by apply IH.
Qed.

(** Two sorted arrangements of commands with distinct names are one. *)
Lemma sorted_names_unique cs cs' :
  cs ≡ₚ cs' → NoDup (name <$> cs) →
  StronglySorted name_le cs → StronglySorted name_le cs' → cs = cs'.
Proof.
  intros Hperm Hnames Hs Hs'.
  apply (StronglySorted_unique_strong name_le); [|done..].
  intros c1 c2 H1 H2 H12 H21. rewrite <- Hperm in H2.
  apply (NoDup_fmap_inj name cs); [done..|].
  unfold name_le, compar_le, compareCommandNames in *.
  apply strcmp_eq. rewrite (strcmp_flip (name c1) (name c2)) in H21. lia.
Qed.

(** X6: [execute] calls the handler of the first registered command, in
    the order of the array, that agrees with the parsed line in name and
    kind; a command registered after it with the same name and kind is not
    called.  The registry is left as it is. *)
Theorem execute_first_match stack command_str sh input out cs1 c cs2 :
  parseCommand command_str stack = Some (input, out) →
  entries sh = cs1 ++ c :: cs2 →
  agree input c → (∀ c', c' ∈ cs1 → ¬ agree input c') →
  execute qsort stack command_str sh = Some (sh, out ++ call input c) ∧
  calls (out ++ call input c) = [invocation input c].
Proof.
  intros Hp Hentries Hagree Hfirst.
  rewrite (execute_unfold _ _ _ _ _ _ Hp), Hentries, execute_loop_app.
  apply execute_loop_None in Hfirst. rewrite Hfirst. simpl.
  apply matches_agree in Hagree. rewrite Hagree. split; [done|].
  by rewrite calls_app, calls_call, (parseCommand_calls _ _ _ _ Hp).
Qed.

(** X7: a command registered while the registry has room is called by
    every line that parses to its name and kind, with the decoded
    argument, unless a command registered before agrees with the line. *)
Theorem define_then_execute def tag name' function' doc_fstring sh
    stack command_str input out :
  (def, tag) ∈ [(defineCommand, NONE); (defineIntCommand, INT32);
                (defineStringCommand, STRING)] →
  registry_ok sh → commands_count sh < MAX_COMMANDS →
  parseCommand command_str stack = Some (input, out) →
  function_name input = name' → argument_type input = tag →
  (∀ c, c ∈ entries sh → ¬ agree input c) →
  ∃ sh',
    def name' function' doc_fstring sh = Some (sh', []) ∧
    execute qsort stack command_str sh' =
      Some (sh',
            out ++ call input (mkCommand name' function' doc_fstring tag)) ∧
    calls (out ++ call input (mkCommand name' function' doc_fstring tag)) =
      [invocation input (mkCommand name' function' doc_fstring tag)].
Proof.
  intros Hdef Hok Hroom Hp Hname Hkind Hfirst.
  assert (def = define tag) as ->.
  { rewrite !elem_of_cons, elem_of_nil in Hdef.
    by destruct Hdef as [[= -> ->]|[[= -> ->]|[[= -> ->]|[]]]]. }
  destruct (define_room tag name' function' doc_fstring sh Hok Hroom)
    as (sh1 & sh' & _ & Hdefine & Hentries & _).
  exists sh'. split; [done|].
  rewrite (execute_unfold _ _ _ _ _ _ Hp), Hentries, execute_loop_app.
  apply execute_loop_None in Hfirst. rewrite Hfirst. simpl.
  assert (matches input (mkCommand name' function' doc_fstring tag) = true)
    as -> by by apply matches_agree.
  split; [done|].
  by rewrite calls_app, calls_call, (parseCommand_calls _ _ _ _ Hp).
Qed.

(** X8: when no two registered commands have the same name and kind, a
    call of [execute], also one that sorts the registry for the listing,
    does not change what later lines call: every later line calls the same
    handlers as it would have before, and a line that calls a handler
    prints the same. *)
Theorem execute_after_execute stack0 line0 sh sh0 evs0 :
  (∀ c1 c2, c1 ∈ entries sh → c2 ∈ entries sh →
            name c1 = name c2 → parameter_type c1 = parameter_type c2 →
            c1 = c2) →
  execute qsort stack0 line0 sh = Some (sh0, evs0) →
  ∀ stack line,
    (calls ∘ snd) <$> execute qsort stack line sh0 =
      (calls ∘ snd) <$> execute qsort stack line sh ∧
    ∀ sh' evs,
      execute qsort stack line sh = Some (sh', evs) → calls evs ≠ [] →
      execute qsort stack line sh0 = Some (sh0, evs).
Proof using qsort_Permutation.
  intros Huniq Hexec stack line.
  destruct (execute_keeps _ _ _ _ _ Hexec) as (_ & _ & Hperm & _).
  destruct (parseCommand line stack) as [[input out]|] eqn:Hp; last first.
  { unfold execute. rewrite Hp. done. }
  rewrite !(execute_unfold _ _ _ _ _ _ Hp).
  pose proof (parseCommand_calls _ _ _ _ Hp) as Hout.
  rewrite (execute_loop_Permutation input (entries sh0) (entries sh) Hperm);
    last first.
  { intros c1 c2 H1 H2 [Hn1 Hk1] [Hn2 Hk2]. rewrite Hperm in H1, H2.
    apply Huniq; congruence. }
  destruct (execute_loop input (entries sh)) as [evs|] eqn:Hloop.
  - split; [done|]. by intros sh' evs' [= <- <-] _.
  - split.
    + unfold fmap, option_fmap, option_map, compose. cbn [snd].
      by rewrite !calls_app, !calls_listAvailableCommands.
    + intros sh' evs' [_ <-]%(inj Some)%pair_equal_spec Hcalls.
      by rewrite !calls_app, calls_listAvailableCommands, Hout in Hcalls.
Qed.

(** X9: with distinct names the help listing does not depend on the order
    in which the commands were registered or stand in the array, and
    listing again prints the same and leaves the sorted commands in
    place. *)
Theorem listAvailableCommands_order sh1 sh2 :
  entries sh1 ≡ₚ entries sh2 → NoDup (name <$> entries sh1) →
  (listAvailableCommands qsort sh1).2 = (listAvailableCommands qsort sh2).2 ∧
  entries (listAvailableCommands qsort sh1).1 =
    entries (listAvailableCommands qsort sh2).1 ∧
  (listAvailableCommands qsort (listAvailableCommands qsort sh1).1).2 =
    (listAvailableCommands qsort sh1).2 ∧
  entries (listAvailableCommands qsort (listAvailableCommands qsort sh1).1).1 =
    entries (listAvailableCommands qsort sh1).1.
Proof using qsort_Permutation qsort_sorted.
  intros Hperm Hnames.
  assert (∀ cs, cs ≡ₚ entries sh1 →
            qsort compareCommandNames cs =
            qsort compareCommandNames (entries sh1)) as Hsame.
  { intros cs Hcs. apply sorted_names_unique; [| |done..].
    - by rewrite !qsort_Permutation.
    - by rewrite qsort_Permutation, Hcs. }
  rewrite !listAvailableCommands_events, !listAvailableCommands_entries
    by done.
  rewrite (Hsame (entries sh2)) by done.
  rewrite (Hsame (qsort compareCommandNames (entries sh1)))
    by apply qsort_Permutation.
  done.
Qed.

(** X10: a line that is not empty never calls a command whose name has a
    space or more than 39 characters, and it calls a command without
    parameter only when it has no space itself: the command called is a
    registered one whose name is a prefix of the line, and nothing but the
    "Calling" trace is printed around the call. *)
Theorem execute_reaches stack s sh sh' evs :
  strlen s < 2 ^ 32 → s ≠ EmptyString →
  execute qsort stack s sh = Some (sh', evs) → calls evs ≠ [] →
  ∃ input c,
    c ∈ entries sh ∧ evs = call input c ∧ calls evs = [invocation input c] ∧
    (∃ rest, s = name c +:+ rest) ∧
    strchr (name c) " " = None ∧ strlen (name c) <= 39 ∧
    (parameter_type c = NONE ↔ strchr s " " = None) ∧
    sh' = sh.
Proof.
  intros Hlen Hne Hexec Hcalls.
  destruct (parseCommand s stack) as [[input out]|] eqn:Hp;
    [|by unfold execute in Hexec; rewrite Hp in Hexec].
  rewrite (execute_unfold _ _ _ _ _ _ Hp) in Hexec.
  destruct (parse_shape s stack input out Hlen Hne Hp)
    as (-> & Hprefix & Hspace & Hshort & Hkind).
  destruct (execute_loop input (entries sh)) as [evs'|] eqn:Hloop.
  - apply (inj Some), pair_equal_spec in Hexec as [<- <-].
    apply execute_loop_Some in Hloop as (c & Hc & [Hn Hk] & ->).
    exists input, c. rewrite <- Hn, <- Hk.
    split_and!; [done|done|apply calls_call|done..].
  - apply (inj Some), pair_equal_spec in Hexec as [_ <-].
    by rewrite !calls_app, calls_listAvailableCommands in Hcalls.
Qed.

End dispatch_order.

(** ** More on the line assembler *)

Section assembler_lines.

Variable qsort : (Command → Command → Z) → list Command → list Command.
Hypothesis qsort_Permutation : ∀ compar l, qsort compar l ≡ₚ l.

Implicit Types (sh : Shell) (bytes : list ascii) (b : ascii) (s : string).

Lemma until_nul_string s :
  Forall (λ b, b ≠ NUL) (list_ascii_of_string s) →
  until_nul (list_ascii_of_string s) = s.
Proof.
  induction s as [|c s IH]; simpl; [done|].
  intros [Hc Hs]%Forall_cons. destruct (Ascii.eqb_spec c NUL); [done|].
  by rewrite IH.
Qed.

Lemma output_echo bytes :
  output ((λ b, Print (String b EmptyString)) <$> bytes) =
    string_of_list_ascii bytes.
Proof. induction bytes as [|b bytes IH]; simpl; [done|]. f_equal. apply IH. Qed.

(** Ordinary bytes that fit: each is stored at the cursor and echoed, after
    the prompt when the line starts. *)
Lemma checkSerialInput_store stacks bytes sh :
  line_ok sh → Forall (λ b, ordinary b = true) bytes →
  input_pos sh + Z.of_nat (length bytes) <= MAX_COMMAND_SIZE - 1 →
  ∃ buf,
    checkSerialInput qsort stacks bytes sh =
      Some (set_input_pos (input_pos sh + Z.of_nat (length bytes))
              (set_input_line buf sh),
            (if (input_pos sh =? 0) && negb (bool_decide (bytes = []))
             then [Print "> "] else []) ++
            ((λ b, Print (String b EmptyString)) <$> bytes)) ∧
    length buf = length (input_line sh) ∧
    take (Z.to_nat (input_pos sh + Z.of_nat (length bytes))) buf =
      take (Z.to_nat (input_pos sh)) (input_line sh) ++ bytes.
Proof.
  revert stacks sh.
  induction bytes as [|b bytes IH]; intros stacks sh Hok Hbytes Hfit.
  - exists (input_line sh). simpl. rewrite andb_false_r, Z.add_0_r.
    split_and!; [by destruct sh|done|by rewrite app_nil_r].
  - apply Forall_cons in Hbytes as [Hb Hbytes]. simpl length in *.
    pose proof Hok as [Hlen Hpos]. unfold MAX_COMMAND_SIZE in *.
    cbn [checkSerialInput].
    rewrite processSerialInput_ordinary by done. cbv zeta.
    destruct (Z.ltb_spec (input_pos sh) (MAX_COMMAND_SIZE - 1)) as [_|Hge];
      [|unfold MAX_COMMAND_SIZE in Hge; lia].
    set (sh1 := set_input_pos _ _). cbn [mbind option_bind].
    destruct (IH (λ k, stacks (S k)) sh1) as (buf & -> & Hbuf & Htake);
      [|done|unfold sh1; simpl; lia|].
    { unfold line_ok, sh1. simpl. rewrite length_alter.
      unfold MAX_COMMAND_SIZE. lia. }
    exists buf. cbn [mbind option_bind]. unfold sh1 in *. simpl in *.
    rewrite length_alter in Hbuf. split_and!; [|done|].
    + f_equal. f_equal.
      * unfold set_input_pos, set_input_line. simpl. f_equal. lia.
      * destruct (Z.eqb_spec (input_pos sh + 1) 0); [lia|].
        rewrite andb_true_r. simpl.
        by destruct (input_pos sh =? 0).
    + trans (take (Z.to_nat (input_pos sh + 1 + Z.of_nat (length bytes))) buf);
        [f_equal; lia|].
      rewrite Htake.
      replace (Z.to_nat (input_pos sh + 1))
        with (S (Z.to_nat (input_pos sh))) by lia.
      destruct (lookup_lt_is_Some_2 (input_line sh) (Z.to_nat (input_pos sh)))
        as [x Hx]; [lia|].
      erewrite take_S_r; last first.
      { rewrite list_lookup_alter_eq, Hx. simpl. done. }
      rewrite take_alter_ge by lia. by rewrite <- app_assoc.
Qed.

(** X11: bytes that arrive in two batches are handled as if they had
    arrived in one: the cursor and the line under construction are carried
    from one call of [checkSerialInput] to the next. *)
Theorem checkSerialInput_batches stacks bytes1 bytes2 sh :
  checkSerialInput qsort stacks (bytes1 ++ bytes2) sh =
    '(sh1, evs1) ← checkSerialInput qsort stacks bytes1 sh;
    '(sh2, evs2) ← checkSerialInput qsort
                     (λ k, stacks (length bytes1 + k)%nat) bytes2 sh1;
    Some (sh2, evs1 ++ evs2).
Proof.
  revert stacks sh. induction bytes1 as [|b bytes1 IH]; intros stacks sh.
  - simpl.
    change (λ k : nat, stacks k) with stacks.
    by destruct (checkSerialInput qsort stacks bytes2 sh) as [[sh2 evs2]|].
  - simpl.
    destruct (processSerialInput qsort (stacks O) b sh) as [[sh0 evs0]|];
      [|done]. simpl. rewrite IH.
    destruct (checkSerialInput qsort _ bytes1 sh0) as [[sh1 evs1]|]; [|done].
    simpl.
    destruct (checkSerialInput qsort _ bytes2 sh1) as [[sh2 evs2]|]; [|done].
    simpl. by rewrite app_assoc.
Qed.

(** X12: a line of at most 39 ordinary characters typed at the start of a
    line and ended by a line feed is echoed after the prompt and executed
    as it was typed, on the same registry, and the cursor is back at 0. *)
Theorem checkSerialInput_line stacks s sh :
  line_ok sh → input_pos sh = 0 → strlen s <= MAX_COMMAND_SIZE - 1 →
  Forall (λ b, ordinary b = true) (list_ascii_of_string s) →
  Forall (λ b, b ≠ NUL) (list_ascii_of_string s) →
  ∃ sh1 echo,
    commands sh1 = commands sh ∧ commands_count sh1 = commands_count sh ∧
    calls echo = [] ∧
    output echo =
      (if bool_decide (s = EmptyString) then EmptyString else "> " +:+ s)
      +:+ CRLF ∧
    checkSerialInput qsort stacks (list_ascii_of_string s ++ ["010"%char]) sh =
      execute qsort (stacks (String.length s)) s sh1
      ≫= λ '(sh', evs), Some (set_input_pos 0 sh', echo ++ evs).
Proof.
  intros Hok Hpos Hlen Hord Hnul.
  assert (length (list_ascii_of_string s) = String.length s) as Hbytes.
  { clear. induction s; simpl; [done|by f_equal]. }
  destruct (checkSerialInput_store stacks (list_ascii_of_string s) sh)
    as (buf & Hrun & Hbuf & Htake); [done|done| |].
  { rewrite Hbytes, Hpos. unfold strlen in Hlen. lia. }
  rewrite Hpos in Hrun, Htake. simpl in Htake.
  rewrite checkSerialInput_batches, Hrun. cbn [mbind option_bind].
  cbn [checkSerialInput].
  set (sh0 := set_input_pos _ _).
  assert (line_ok sh0) as Hok0.
  { destruct Hok as [Hl _]. unfold line_ok, sh0. simpl. rewrite Hbuf, Hbytes.
    unfold strlen in Hlen. lia. }
  rewrite processSerialInput_newline by done.
  replace (take (Z.to_nat (input_pos sh0)) (input_line sh0))
    with (list_ascii_of_string s) by (by rewrite <- Htake).
  rewrite until_nul_string by done.
  rewrite Nat.add_0_r, Hbytes.
  set (sh1 := set_input_line _ sh0).
  exists sh1,
    ((if (0 =? 0) && negb (bool_decide (list_ascii_of_string s = []))
      then [Print "> "] else []) ++
     ((λ b, Print (String b EmptyString)) <$> list_ascii_of_string s) ++
     [println ""]).
  split_and!; [done|done| | |].
  - rewrite !calls_app. destruct s; simpl; [done|].
    clear. generalize (list_ascii_of_string s). intros l.
    by induction l.
  - rewrite !output_app, output_echo, string_of_list_ascii_of_string.
    by destruct s.
  - destruct (execute qsort (stacks (String.length s)) s sh1)
      as [[sh' evs]|]; [|done].
    cbn [mbind option_bind]. rewrite app_nil_r. by rewrite <- !app_assoc.
Qed.

(** X13: an ordinary byte followed by a backspace.  When the byte was
    stored, the cursor and the characters before it are as they were; at
    the last position the byte is dropped and the backspace takes the
    character typed before it. *)
Theorem checkSerialInput_erase stacks b sh :
  line_ok sh → ordinary b = true →
  ∃ sh' evs,
    checkSerialInput qsort stacks [b; "008"%char] sh = Some (sh', evs) ∧
    commands sh' = commands sh ∧ commands_count sh' = commands_count sh ∧
    calls evs = [] ∧
    (input_pos sh < MAX_COMMAND_SIZE - 1 →
     input_pos sh' = input_pos sh ∧
     take (Z.to_nat (input_pos sh)) (input_line sh') =
       take (Z.to_nat (input_pos sh)) (input_line sh)) ∧
    (input_pos sh = MAX_COMMAND_SIZE - 1 →
     input_pos sh' = MAX_COMMAND_SIZE - 2 ∧ input_line sh' = input_line sh).
Proof.
  intros Hok Hb. pose proof Hok as [Hlen Hpos]. cbn [checkSerialInput].
  rewrite processSerialInput_ordinary by done. cbv zeta.
  unfold MAX_COMMAND_SIZE in *.
  destruct (Z.ltb_spec (input_pos sh) (40 - 1)) as [Hlt|Hge];
    cbn [mbind option_bind]; unfold processSerialInput; simpl.
  - destruct (Z.ltb_spec 0 (input_pos sh + 1)); [|lia]. simpl.
    eexists _, _. split; [done|]. simpl. split_and!; [done|done| | |lia].
    + by destruct (input_pos sh =? 0).
    + intros _. split; [lia|]. by rewrite take_alter_ge.
  - destruct (Z.ltb_spec 0 (input_pos sh)); [|lia]. simpl.
    eexists _, _. split; [done|]. simpl. split_and!; [done|done| |lia|].
    + by destruct (input_pos sh =? 0).
    + intros Hfull. split; [lia|done].
Qed.

(** X14: no bytes from the serial line change which commands are
    registered: after any input the count and the array length are the
    same and the registered commands are the same up to their order. *)
Theorem checkSerialInput_registry stacks bytes sh sh' evs :
  checkSerialInput qsort stacks bytes sh = Some (sh', evs) →
  commands_count sh' = commands_count sh ∧
  length (commands sh') = length (commands sh) ∧
  entries sh' ≡ₚ entries sh ∧
  (registry_ok sh → registry_ok sh').
Proof using qsort_Permutation.
  assert (∀ stack b sh sh' evs,
            processSerialInput qsort stack b sh = Some (sh', evs) →
            commands_count sh' = commands_count sh ∧
            length (commands sh') = length (commands sh) ∧
            entries sh' ≡ₚ entries sh) as Hstep.
  { clear stacks bytes sh sh' evs. intros stack b sh sh' evs.
    unfold processSerialInput.
    repeat case_match; intros; simplify_option_eq; try done.
    match goal with
    | H : execute _ _ _ _ = Some ?r |- _ =>
        destruct r as [sh0 evs0];
        apply (execute_keeps qsort qsort_Permutation) in H
          as (? & ? & ? & _)
    end. by simplify_eq. }
  revert stacks sh sh' evs.
  induction bytes as [|b bytes IH]; intros stacks sh sh' evs.
  - by intros [= <- <-].
  - simpl. intros Hrun.
    destruct (processSerialInput qsort (stacks O) b sh) as [[sh1 evs1]|]
      eqn:H1; [|done]. simpl in Hrun.
    destruct (checkSerialInput qsort _ bytes sh1) as [[sh2 evs2]|]
      eqn:H2; [|done]. simpl in Hrun. simplify_eq.
    apply Hstep in H1 as (Hc1 & Hl1 & Hp1).
    apply IH in H2 as (Hc2 & Hl2 & Hp2 & _).
    split_and!; [congruence|congruence|by etrans|].
    unfold registry_ok. rewrite Hc2, Hc1, Hl2, Hl1. done.
Qed.

End assembler_lines.

(** ** More on registration *)

Section registrations.

Implicit Types (sh : Shell) (regs : list (input_type * string * fnptr * string)).

Lemma define_all_spec regs sh :
  registry_ok sh →
  ∃ sh',
    define_all regs sh =
      Some (sh',
            replicate
              (Z.to_nat (commands_count sh + Z.of_nat (length regs)
                         - MAX_COMMANDS)) too_many) ∧
    entries sh' =
      entries sh ++
      take (Z.to_nat (MAX_COMMANDS - commands_count sh)) (registered <$> regs) ∧
    commands_count sh' =
      Z.min (commands_count sh + Z.of_nat (length regs)) MAX_COMMANDS ∧
    registry_ok sh' ∧
    input_line sh' = input_line sh ∧ input_pos sh' = input_pos sh.
Proof.
  revert sh. induction regs as [|[[[tag name'] function'] doc_fstring] regs IH];
    intros sh Hok.
  - exists sh. pose proof Hok as [_ [? ?]].
    cbn [define_all length fmap list_fmap].
    replace (Z.to_nat (commands_count sh + Z.of_nat 0 - MAX_COMMANDS))
      with O by lia.
    rewrite take_nil, app_nil_r. split_and!; [done|done|lia|done|done|done].
  - pose proof Hok as [Hlen [Hlo Hhi]]. cbn [define_all].
    destruct (Z.eq_dec (commands_count sh) MAX_COMMANDS) as [Hfull|Hroom].
    + destruct (define_full tag name' function' doc_fstring sh) as [_ ->];
        [lia|]. cbn [mbind option_bind].
      destruct (IH sh Hok) as (sh' & -> & Hentries & Hcount & Hok' & Hline).
      exists sh'. cbn [mbind option_bind]. rewrite Hfull in *.
      unfold MAX_COMMANDS in *. simpl length.
      split_and!; [|by rewrite Hentries|lia|done|apply Hline|apply Hline].
      f_equal. f_equal. fold too_many.
      replace (Z.to_nat (10 + Z.of_nat (S (length regs)) - 10))
        with (S (Z.to_nat (10 + Z.of_nat (length regs) - 10))) by lia.
      done.
    + destruct (define_room tag name' function' doc_fstring sh)
        as (sh0 & sh1 & _ & -> & Hentries1 & Hcount1 & Hlen1 & Hl1 & Hp1);
        [done|lia|]. cbn [mbind option_bind].
      destruct (IH sh1) as (sh' & -> & Hentries & Hcount & Hok' & Hl & Hp).
      { unfold registry_ok. rewrite Hlen1, Hcount1. split; [done|lia]. }
      exists sh'. cbn [mbind option_bind]. unfold MAX_COMMANDS in *.
      simpl length. rewrite Hcount1 in *.
      split_and!; [| |lia|done|congruence|congruence].
      * f_equal. f_equal. simpl. f_equal. lia.
      * rewrite Hentries, Hentries1, <- app_assoc. f_equal.
        replace (Z.to_nat (10 - commands_count sh))
          with (S (Z.to_nat (10 - (commands_count sh + 1)))) by lia.
        done.
Qed.

Lemma defineShellCommands_define_all sh :
  defineShellCommands sh = define_all shell_commands sh.
Proof.
  unfold defineShellCommands, shell_commands, defineCommand,
    defineIntCommand, defineStringCommand. cbn [define_all].
  repeat match goal with
  | |- context [define ?t ?n ?f ?d ?sh] =>
      destruct (define t n f d sh) as [[? ?]|]; [|done];
      cbn [mbind option_bind]
  end.
  by rewrite app_nil_r.
Qed.

(** X15: of the registration calls made one after the other, those that
    find room store their commands after the registered ones, in the order
    of the calls; each of the others prints the warning once and changes
    nothing; the count never exceeds [MAX_COMMANDS], and the line
    assembler's state is not touched. *)
Theorem define_all_capacity regs sh :
  registry_ok sh →
  ∃ sh',
    define_all regs sh =
      Some (sh',
            replicate
              (Z.to_nat (commands_count sh + Z.of_nat (length regs)
                         - MAX_COMMANDS)) too_many) ∧
    entries sh' =
      entries sh ++
      take (Z.to_nat (MAX_COMMANDS - commands_count sh)) (registered <$> regs) ∧
    commands_count sh' =
      Z.min (commands_count sh + Z.of_nat (length regs)) MAX_COMMANDS ∧
    registry_ok sh' ∧
    input_line sh' = input_line sh ∧ input_pos sh' = input_pos sh.
Proof. apply define_all_spec. Qed.

(** X16: [defineShellCommands] on a registry that holds at most one
    command registers its nine commands in the order of the source and
    prints nothing; on a fuller registry it registers the first ones,
    as many as there are free slots, and prints one warning for each of
    the others. *)
Theorem defineShellCommands_capacity sh :
  registry_ok sh →
  ∃ sh',
    defineShellCommands sh =
      Some (sh', replicate (Z.to_nat (commands_count sh - 1)) too_many) ∧
    entries sh' =
      entries sh ++
      take (Z.to_nat (MAX_COMMANDS - commands_count sh))
        (registered <$> shell_commands) ∧
    commands_count sh' = Z.min (commands_count sh + 9) MAX_COMMANDS ∧
    registry_ok sh' ∧
    (commands_count sh <= 1 →
     defineShellCommands sh = Some (sh', []) ∧
     entries sh' = entries sh ++ (registered <$> shell_commands)).
Proof.
  intros Hok. rewrite defineShellCommands_define_all.
  destruct (define_all_spec shell_commands sh Hok)
    as (sh' & -> & Hentries & Hcount & Hok' & _).
  exists sh'. pose proof Hok as [_ [Hlo Hhi]]. unfold MAX_COMMANDS in *.
  simpl length in *.
  replace (Z.to_nat (commands_count sh + Z.of_nat 9 - 10))
    with (Z.to_nat (commands_count sh - 1)) by lia.
  split_and!; [done|done|lia|done|].
  intros Hfew. split.
  - by replace (Z.to_nat (commands_count sh - 1)) with O by lia.
  - rewrite Hentries. f_equal. apply take_ge. simpl. lia.
Qed.

End registrations.

(** ** The further statements at the sketch *)

Lemma sketch_names_distinct : NoDup (name <$> entries sketch).
Proof. apply (bool_decide_unpack _). by vm_compute. Qed.

Lemma sketch_registry_ok : registry_ok sketch.
Proof. by vm_compute. Qed.

Lemma sketch_line_ok : line_ok sketch.
Proof. by vm_compute. Qed.

(** [reset] alone. *)
Lemma parseCommand_name_only_reset :
  ∃ input,
    parseCommand "reset" zeroed = Some (input, []) ∧
    function_name input = "reset" ∧ argument_type input = NONE.
Proof.
  destruct (parseCommand_name_only "reset" zeroed)
    as (input & Hp & _ & _ & Hname & Hkind & _); [discriminate|reflexivity|].
  exists input. split_and!; [exact Hp|by apply Hname; vm_compute|exact Hkind].
Defined.

(** A space at offset 2. *)
Lemma parseCommand_defined_iff_ap :
  is_Some (parseCommand "ap 1" zeroed) ↔ 2 < MAX_COMMAND_SIZE.
Proof. apply (parseCommand_defined_iff "ap 1" zeroed). by vm_compute. Defined.

(** An argument of 37 characters after [ap]: 36 are kept, and the text
    that ends in a letter becomes a number. *)
Lemma parseCommand_argument_cut_ap :
  ∃ input,
    parseCommand "ap 111111111111111111111111111111111111x" zeroed =
      Some (input, []) ∧
    str_argument input = "111111111111111111111111111111111111" ∧
    argument_type input = INT32 ∧ int_argument input = LONG_MAX.
Proof.
  destruct (parseCommand_argument_cut "ap"
              "111111111111111111111111111111111111x" zeroed)
    as (input & Hp & _ & Harg & _ & _ & Hkind & Hint);
    [reflexivity|by vm_compute|].
  exists input. rewrite Hkind, Hint, Harg. split_and!; [exact Hp|reflexivity..].
Defined.

(** A name of 39 characters and a space: the argument is what the stack
    held. *)
Lemma parseCommand_argument_unset_39 :
  ∃ input,
    parseCommand "aaaaaaaaaaaaaaaaaaaaaaaaaaaaaaaaaaaaaaa 1"
      (mkCommandLine EmptyString NONE 0 "stale") = Some (input, []) ∧
    str_argument input = "stale" ∧ argument_type input = STRING.
Proof.
  destruct (parseCommand_argument_unset
              "aaaaaaaaaaaaaaaaaaaaaaaaaaaaaaaaaaaaaaa" "1"
              (mkCommandLine EmptyString NONE 0 "stale"))
    as (_ & input & Hp & _ & Harg & Hkind & _); [reflexivity..|].
  exists input. split_and!; [exact Hp|exact Harg|exact Hkind].
Defined.

(** The shape of [name my_thing]. *)
Lemma parseCommand_shape_name :
  strchr "name" " " = None ∧ strlen "name" <= 39 ∧
  (STRING = NONE ↔ strchr "name my_thing" " " = None).
Proof.
  destruct (parseCommand_shape "name my_thing" zeroed
              (mkCommandLine "name" STRING 0 "my_thing") [])
    as (_ & _ & Hspace & Hshort & Hkind);
    [by vm_compute|discriminate|reflexivity|].
  split_and!; [exact Hspace|exact Hshort|exact Hkind].
Defined.

(** [ap 1] finds [ap] after seven commands. *)
Lemma execute_first_match_ap :
  execute merge_qsort zeroed "ap 1" sketch =
    Some (sketch,
          call (mkCommandLine "ap" INT32 1 "1")
            (mkCommand "ap" 8 "0/1 (Enables/disables access point)" INT32)).
Proof.
  apply (execute_first_match merge_qsort zeroed "ap 1" sketch
           (mkCommandLine "ap" INT32 1 "1") []
           (take 7 (entries sketch))
           (mkCommand "ap" 8 "0/1 (Enables/disables access point)" INT32)
           (drop 8 (entries sketch))); [reflexivity|reflexivity|done|].
  intros c Hc [Hname Hkind]. vm_compute in Hc.
  repeat (apply elem_of_cons in Hc as [->|Hc]; [done|]).
  by apply elem_of_nil in Hc.
Defined.

(** A command [help] added to the sketch is called by the line [help]. *)
Lemma define_then_execute_help :
  ∃ sh',
    defineCommand "help" 10 "(Lists the commands)" sketch = Some (sh', []) ∧
    execute merge_qsort zeroed "help" sh' =
      Some (sh', call (mkCommandLine "help" NONE 0 EmptyString)
                   (mkCommand "help" 10 "(Lists the commands)" NONE)).
Proof.
  destruct (define_then_execute merge_qsort defineCommand NONE "help" 10
              "(Lists the commands)" sketch zeroed "help"
              (mkCommandLine "help" NONE 0 EmptyString) [])
    as (sh' & Hdef & Hexec & _);
    [left|exact sketch_registry_ok|by vm_compute|reflexivity|reflexivity
    |reflexivity| |].
  { intros c Hc [Hname Hkind]. vm_compute in Hc.
    repeat (apply elem_of_cons in Hc as [->|Hc]; [done|]).
    by apply elem_of_nil in Hc. }
  exists sh'. split; [exact Hdef|exact Hexec].
Defined.

(** After [help] has sorted the sketch, [ap 1] still calls [ap]. *)
Lemma execute_after_execute_help :
  ∃ sh0 evs0,
    execute merge_qsort zeroed "help" sketch = Some (sh0, evs0) ∧
    (calls ∘ snd) <$> execute merge_qsort zeroed "ap 1" sh0 =
      (calls ∘ snd) <$> execute merge_qsort zeroed "ap 1" sketch.
Proof.
  eexists _, _. split; [vm_compute; reflexivity|].
  eapply (execute_after_execute merge_qsort merge_qsort_Permutation zeroed
            "help" sketch); [|vm_compute; reflexivity].
  intros c1 c2 H1 H2 Hname _.
  by apply (NoDup_fmap_inj name (entries sketch) c1 c2 sketch_names_distinct).
Defined.

(** The listing of the sketch, before and after it was sorted. *)
Lemma listAvailableCommands_order_sketch :
  (listAvailableCommands merge_qsort
     (listAvailableCommands merge_qsort sketch).1).2 =
    (listAvailableCommands merge_qsort sketch).2.
Proof.
  apply (listAvailableCommands_order merge_qsort merge_qsort_Permutation
           merge_qsort_sorted sketch sketch);
    [done|exact sketch_names_distinct].
Defined.

(** [ap 1] reaches a command whose name has no space. *)
Lemma execute_reaches_ap :
  ∃ input c,
    c ∈ entries sketch ∧ calls (call input c) = [invocation input c] ∧
    strchr (name c) " " = None ∧ strlen (name c) <= 39.
Proof.
  destruct (execute_reaches merge_qsort zeroed "ap 1" sketch sketch
              (call (mkCommandLine "ap" INT32 1 "1")
                 (mkCommand "ap" 8 "0/1 (Enables/disables access point)"
                    INT32)))
    as (input & c & Hc & Hevs & Hcalls & _ & Hspace & Hshort & _);
    [by vm_compute|discriminate|by vm_compute|by vm_compute|].
  exists input, c. rewrite <- Hevs.
  split_and!; [exact Hc|exact Hcalls|exact Hspace|exact Hshort].
Defined.

(** [wifi 1] typed at the console of the sketch. *)
Lemma checkSerialInput_line_wifi :
  ∃ sh1 echo,
    commands sh1 = commands sketch ∧
    output echo = "> wifi 1" +:+ CRLF ∧
    checkSerialInput merge_qsort (λ _, zeroed)
      ["w"; "i"; "f"; "i"; " "; "1"; "010"]%char sketch =
      execute merge_qsort zeroed "wifi 1" sh1
      ≫= λ '(sh', evs), Some (set_input_pos 0 sh', echo ++ evs).
Proof.
  destruct (checkSerialInput_line merge_qsort (λ _, zeroed) "wifi 1" sketch)
    as (sh1 & echo & Hcommands & _ & _ & Hecho & Hrun);
    [exact sketch_line_ok|reflexivity|by vm_compute| | |].
  { repeat (apply Forall_cons; split; [reflexivity|]). apply Forall_nil_2. }
  { repeat (apply Forall_cons; split; [discriminate|]). apply Forall_nil_2. }
  exists sh1, echo. split_and!; [exact Hcommands|exact Hecho|exact Hrun].
Defined.

(** A character typed and erased at the start of a line. *)
Lemma checkSerialInput_erase_sketch :
  ∃ sh' evs,
    checkSerialInput merge_qsort (λ _, zeroed) ["x"; "008"]%char sketch =
      Some (sh', evs) ∧
    commands sh' = commands sketch ∧ input_pos sh' = 0.
Proof.
  destruct (checkSerialInput_erase merge_qsort (λ _, zeroed) "x" sketch)
    as (sh' & evs & Hrun & Hcommands & _ & _ & Hstored & _);
    [exact sketch_line_ok|reflexivity|].
  exists sh', evs. split_and!; [exact Hrun|exact Hcommands|].
  apply Hstored. by vm_compute.
Defined.

(** [help] typed at the console leaves the nine commands. *)
Lemma checkSerialInput_registry_help :
  ∃ sh' evs,
    checkSerialInput merge_qsort (λ _, zeroed)
      ["h"; "e"; "l"; "p"; "010"]%char sketch = Some (sh', evs) ∧
    commands_count sh' = commands_count sketch ∧
    entries sh' ≡ₚ entries sketch.
Proof.
  eexists _, _. split; [vm_compute; reflexivity|].
  destruct (checkSerialInput_registry merge_qsort merge_qsort_Permutation
              (λ _, zeroed) ["h"; "e"; "l"; "p"; "010"]%char sketch _ _
              eq_refl) as (Hcount & _ & Hperm & _).
  split; [exact Hcount|exact Hperm].
Defined.

(** Twelve registrations from the start: two warnings. *)
Lemma define_all_capacity_twelve :
  ∃ sh',
    define_all (shell_commands ++ take 3 shell_commands) initial =
      Some (sh', [too_many; too_many]) ∧
    commands_count sh' = 10.
Proof.
  destruct (define_all_capacity (shell_commands ++ take 3 shell_commands)
              initial) as (sh' & Hrun & _ & Hcount & _); [by vm_compute|].
  exists sh'. split; [exact Hrun|exact Hcount].
Defined.

(** [defineShellCommands] at the start of the sketch. *)
Lemma defineShellCommands_capacity_initial :
  ∃ sh',
    defineShellCommands initial = Some (sh', []) ∧
    entries sh' = registered <$> shell_commands ∧
    commands_count sh' = 9.
Proof.
  destruct (defineShellCommands_capacity initial)
    as (sh' & _ & _ & Hcount & _ & Hfew); [by vm_compute|].
  destruct Hfew as [Hrun Hentries]; [by vm_compute|].
  exists sh'. split_and!; [exact Hrun|exact Hentries|exact Hcount].
Defined.
